(** * autoscraper: the utility layer and the persisted rule format

    A shallow embedding of [autoscraper/utils.py] (deduplication of rules
    and of results, text normalisation, exact / pattern / fuzzy text
    matching) together with the part of the Python standard library that
    decides what those functions compute: [str.strip],
    [collections.OrderedDict.fromkeys] and [difflib.SequenceMatcher].

    The last part models the persisted rule file ([save] and [load]) from
    the specification.

    Conventions.
    - A Python [str] is a list of Unicode code points ([list N]).
    - Python floats that carry a ratio are read as the rational numbers
      they denote ([Q]), and the one division of [difflib] is exact: the
      rounding of that division is not modelled, so a statement that
      bounds a ratio is written with [calculate_ratio] on both sides.
      [inf] and [nan], which are floats but no numbers, are treated apart
      ([PyFloat], [text_match_float]).
    - A Python [dict] used as a map is a [gmap], a [set] is a [gset], an
      [OrderedDict] is an association list without repeated keys, keys
      being compared as Python compares them ([dict_key]).
    - A [while] loop is a step function on the state of the loop, iterated
      a number of rounds that is proved to empty its work list, or a
      recursion on a number of rounds that is proved never to run out. *)

From Stdlib Require Import QArith Ascii String.
From stdpp Require Import gmap strings list sorting.

Open Scope nat_scope.

(** ** Python strings *)

Abbreviation str := (list N).

(** [py "abc"] is the Python literal ['abc'] (ASCII only). *)
Definition py (s : string) : str :=
  N_of_ascii <$> list_ascii_of_string s.

(** ** The rule record

    A learned rule is a Python dict with a fixed set of keys; the keys are
    the ones of the dict literals in [tests/unit/test_save_load.py] and of
    the data model.  [wanted_attr] is [None] when the text is extracted,
    [content] lists [(tag, attributes)] from the root to the leaf. *)

Record Stack := mkStack {
  content : list (str * gmap str str);
  wanted_attr : option str;
  is_full_url : bool;
  is_non_rec_text : bool;
  url : str;
  hash : str;
  stack_id : str;
  alias : str
}.

(** ** [unique_stack_list]

<<
    seen = set()
    unique_list = []
    for stack in stack_list:
        stack_hash = stack['hash']
        if stack_hash in seen:
            continue
        unique_list.append(stack)
        seen.add(stack_hash)
    return unique_list
>>
    The loop is a recursion over the remaining stacks that threads the two
    locals [seen] and [unique_list]. *)

Fixpoint unique_stack_loop (seen : gset str) (unique_list : list Stack)
    (stack_list : list Stack) : list Stack :=
  match stack_list with
  | [] => unique_list
  | stack :: rest =>
      let stack_hash := hash stack in
      if decide (stack_hash ∈ seen) then
        unique_stack_loop seen unique_list rest
      else
        unique_stack_loop ({[stack_hash]} ∪ seen) (unique_list ++ [stack]) rest
  end.

Definition unique_stack_list (stack_list : list Stack) : list Stack :=
  unique_stack_loop ∅ [] stack_list.

(** ** [unique_hashable]

<<
    return list(OrderedDict.fromkeys(hashable_items))
>>
    [OrderedDict] keeps its keys in the order of their first insertion;
    assigning to a key that is present replaces the value in place and
    leaves the key object that was inserted first.

    A dictionary tells its keys apart by [__hash__] and [__eq__], not by
    identity: [1] and [True] are one key.  [dict_key x] is the class of [x]
    under [==]; two objects are the same key exactly when their
    [dict_key]s are equal.  Where [==] is plain equality (a [str], a tuple
    of [str]s) [dict_key] is the identity. *)

Class Hashable (K B : Type) := dict_key : K → B.
Global Hint Mode Hashable ! - : typeclass_instances.

Global Instance eq_Hashable {K : Type} : Hashable K K | 100 := id.

(** Integers and booleans as keys: [True == 1] and [False == 0]. *)
Inductive PyNumber := PyInt (z : Z) | PyBool (b : bool).

Definition PyNumber_value (x : PyNumber) : Z :=
  match x with
  | PyInt z => z
  | PyBool b => if b then 1%Z else 0%Z
  end.

Global Instance PyNumber_Hashable : Hashable PyNumber Z := PyNumber_value.

Section OrderedDict.
Context {K B : Type} `{!Hashable K B} `{EqDecision B} {V : Type}.

Definition OrderedDict := list (K * V).

(** [d[k] = v] *)
Definition od_setitem (d : OrderedDict) (k : K) (v : V) : OrderedDict :=
  if decide (dict_key k ∈ dict_key <$> d.*1) then
    (λ kv, if decide (dict_key kv.1 = dict_key k) then (kv.1, v) else kv) <$> d
  else d ++ [(k, v)].

(** [OrderedDict.fromkeys(iterable, value)] *)
Definition od_fromkeys (iterable : list K) (value : V) : OrderedDict :=
  foldl (λ d k, od_setitem d k value) [] iterable.

(** [list(d)] *)
Definition od_keys (d : OrderedDict) : list K := d.*1.
End OrderedDict.

Definition unique_hashable {K B : Type} `{!Hashable K B} `{EqDecision B}
    (hashable_items : list K) : list K :=
  od_keys (od_fromkeys hashable_items ()).

(** ** [difflib.SequenceMatcher(None, a, b)]

    [text_match] and [FuzzyText.search] build a [SequenceMatcher] with
    [isjunk=None] and the default [autojunk=True] and ask for its
    [ratio()].  The sequences are strings here; the algorithm is the same
    for any hashable elements. *)

Section SequenceMatcher.
Context {A : Type} `{Countable A}.

(** [b2j.setdefault(elt, []).append(i)] *)
Definition setdefault_append (b2j : gmap A (list nat)) (elt : A) (i : nat) :
    gmap A (list nat) :=
  <[elt := default [] (b2j !! elt) ++ [i]]> b2j.

(** The first loop of [__chain_b]:
<<
    for i, elt in enumerate(b):
        indices = b2j.setdefault(elt, [])
        indices.append(i)
>> *)
Definition index_b (b : list A) : gmap A (list nat) :=
  foldl (λ b2j ie, setdefault_append b2j ie.2 ie.1) ∅ (imap pair b).

(** The elements purged as popular:
<<
    self.bpopular = popular = set()
    n = len(b)
    if self.autojunk and n >= 200:
        ntest = n // 100 + 1
        for elt, idxs in b2j.items():
            if len(idxs) > ntest:
                popular.add(elt)
        for elt in popular:
            del b2j[elt]
>> *)
Definition bpopular (b : list A) : gset A :=
  let n := length b in
  if decide (200 ≤ n) then
    let ntest := n / 100 + 1 in
    dom (filter (λ ei, ntest < length ei.2) (index_b b))
  else ∅.

(** [__chain_b]: [isjunk] is [None], so [bjunk] stays empty and only the
    popular elements leave [b2j]. *)
Definition chain_b (b : list A) : gmap A (list nat) :=
  filter (λ ei, ei.1 ∉ bpopular b) (index_b b).

Definition bjunk : gset A := ∅.

Definition isbjunk (b : list A) (j : nat) : bool :=
  match b !! j with
  | Some y => bool_decide (y ∈ bjunk)
  | None => false
  end.

(** [a[i] == b[j]], for indices inside the two sequences *)
Definition same_elt (a b : list A) (i j : nat) : bool :=
  match a !! i, b !! j with
  | Some x, Some y => bool_decide (x = y)
  | _, _ => false
  end.

(** [j2lenget(j-1, 0)]: the keys of [j2len] are indices into [b], the key
    [-1] is never present. *)
Definition j2lenget_pred (j2len : gmap nat nat) (j : nat) : nat :=
  match j with
  | 0 => 0
  | S j' => default 0 (j2len !! j')
  end.

(** [Match(a, b, size)] *)
Definition Match : Type := nat * nat * nat.

Definition block_size (m : Match) : nat := m.2.

(** [find_longest_match(alo, ahi, blo, bhi)] begins with
<<
    besti, bestj, bestsize = alo, blo, 0
    j2len = {}
    for i in range(alo, ahi):
        j2lenget = j2len.get
        newj2len = {}
        for j in b2j.get(a[i], nothing):
            if j < blo:
                continue
            if j >= bhi:
                break
            k = newj2len[j] = j2lenget(j-1, 0) + 1
            if k > bestsize:
                besti, bestj, bestsize = i-k+1, j-k+1, k
        j2len = newj2len
>>
    [scan_row] is the inner loop; it carries [newj2len] and the best
    match. *)
Fixpoint scan_row (i blo bhi : nat) (j2len : gmap nat nat) (js : list nat)
    (newj2len : gmap nat nat) (best : Match) : gmap nat nat * Match :=
  match js with
  | [] => (newj2len, best)
  | j :: js' =>
      if decide (j < blo) then scan_row i blo bhi j2len js' newj2len best
      else if decide (bhi ≤ j) then (newj2len, best)
      else
        let k := j2lenget_pred j2len j + 1 in
        let '(besti, bestj, bestsize) := best in
        scan_row i blo bhi j2len js' (<[j := k]> newj2len)
          (if decide (bestsize < k) then (i + 1 - k, j + 1 - k, k) else best)
  end.

(** The outer loop [for i in range(alo, ahi)].  [ahi] never exceeds
    [len(a)], so [a[i]] exists. *)
Definition scan_rows (a : list A) (b2j : gmap A (list nat))
    (alo ahi blo bhi : nat) : gmap nat nat * Match :=
  foldl (λ st i,
           match a !! i with
           | Some x => scan_row i blo bhi st.1 (default [] (b2j !! x)) ∅ st.2
           | None => (∅, st.2)
           end)
        (∅, (alo, blo, 0)) (seq alo (ahi - alo)).

(** The match is then extended, first over elements that are not junk,
    then over junk:
<<
    while besti > alo and bestj > blo and \
          not isbjunk(b[bestj-1]) and \
          a[besti-1] == b[bestj-1]:
        besti, bestj, bestsize = besti-1, bestj-1, bestsize+1
    while besti+bestsize < ahi and bestj+bestsize < bhi and \
          not isbjunk(b[bestj+bestsize]) and \
          a[besti+bestsize] == b[bestj+bestsize]:
        bestsize += 1
>>
    and the same two loops once more with [isbjunk(...)] in place of
    [not isbjunk(...)].  [junk] tells which of the two is meant. *)
Fixpoint extend_left (a b : list A) (alo blo : nat) (junk : bool)
    (besti bestj bestsize : nat) : Match :=
  match besti, bestj with
  | S i', S j' =>
      if bool_decide (alo < besti) && bool_decide (blo < bestj)
         && bool_decide (isbjunk b j' = junk) && same_elt a b i' j'
      then extend_left a b alo blo junk i' j' (S bestsize)
      else (besti, bestj, bestsize)
  | _, _ => (besti, bestj, bestsize)
  end.

(** The loop to the right makes at most [ahi - (besti+bestsize)]
    rounds. *)
Fixpoint extend_right_loop (a b : list A) (ahi bhi : nat) (junk : bool)
    (besti bestj : nat) (rounds bestsize : nat) : nat :=
  match rounds with
  | 0 => bestsize
  | S rounds' =>
      if bool_decide (besti + bestsize < ahi) && bool_decide (bestj + bestsize < bhi)
         && bool_decide (isbjunk b (bestj + bestsize) = junk)
         && same_elt a b (besti + bestsize) (bestj + bestsize)
      then extend_right_loop a b ahi bhi junk besti bestj rounds' (S bestsize)
      else bestsize
  end.

Definition extend_right (a b : list A) (ahi bhi : nat) (junk : bool)
    (best : Match) : Match :=
  let '(besti, bestj, bestsize) := best in
  (besti, bestj,
   extend_right_loop a b ahi bhi junk besti bestj (ahi - (besti + bestsize)) bestsize).

Definition extend (a b : list A) (alo ahi blo bhi : nat) (junk : bool)
    (best : Match) : Match :=
  let '(besti, bestj, bestsize) := best in
  extend_right a b ahi bhi junk (extend_left a b alo blo junk besti bestj bestsize).

Definition find_longest_match (a b : list A) (b2j : gmap A (list nat))
    (alo ahi blo bhi : nat) : Match :=
  let best := (scan_rows a b2j alo ahi blo bhi).2 in
  let best := extend a b alo ahi blo bhi false best in
  extend a b alo ahi blo bhi true best.

(** [get_matching_blocks]:
<<
    la, lb = len(self.a), len(self.b)
    queue = [(0, la, 0, lb)]
    matching_blocks = []
    while queue:
        alo, ahi, blo, bhi = queue.pop()
        i, j, k = x = self.find_longest_match(alo, ahi, blo, bhi)
        if k:
            matching_blocks.append(x)
            if alo < i and blo < j:
                queue.append((alo, i, blo, j))
            if i+k < ahi and j+k < bhi:
                queue.append((i+k, ahi, j+k, bhi))
    matching_blocks.sort()
>>
    [gmb_step] is one round of the loop on the pair of [queue] and
    [matching_blocks].  [queue] is used as a stack ([pop] and [append] both
    work at its end): the head of the list is the end of the Python
    list. *)
Definition Range : Type := nat * nat * nat * nat.

Definition gmb_step (a b : list A) (b2j : gmap A (list nat))
    (st : list Range * list Match) : list Range * list Match :=
  match st.1 with
  | [] => st
  | (alo, ahi, blo, bhi) :: queue =>
      let '(i, j, k) := find_longest_match a b b2j alo ahi blo bhi in
      if decide (k ≠ 0) then
        let queue := if decide (alo < i ∧ blo < j)
                     then (alo, i, blo, j) :: queue else queue in
        let queue := if decide (i + k < ahi ∧ j + k < bhi)
                     then (i + k, ahi, j + k, bhi) :: queue else queue in
        (queue, st.2 ++ [(i, j, k)])
      else (queue, st.2)
  end.

(** The number of rounds after which the queue is empty (see
    [gmb_loop_terminates]). *)
Definition gmb_rounds (a : list A) : nat := 2 * length a + 1.

Definition gmb_loop (a b : list A) : list Range * list Match :=
  Nat.iter (gmb_rounds a) (gmb_step a b (chain_b b))
           ([(0, length a, 0, length b)], []).

(** [matching_blocks.sort()]: tuples compare lexicographically. *)
Definition Match_le (x y : Match) : Prop :=
  let '(i1, j1, k1) := x in
  let '(i2, j2, k2) := y in
  i1 < i2 ∨ (i1 = i2 ∧ (j1 < j2 ∨ (j1 = j2 ∧ k1 ≤ k2))).

Global Instance Match_le_dec : RelDecision Match_le.
Proof. intros [[??]?] [[??]?]. unfold Match_le. apply _. Defined.

(** The loop that collapses adjacent blocks, on [(i1, j1, k1)] and
    [non_adjacent]:
<<
    i1 = j1 = k1 = 0
    non_adjacent = []
    for i2, j2, k2 in matching_blocks:
        if i1 + k1 == i2 and j1 + k1 == j2:
            k1 += k2
        else:
            if k1:
                non_adjacent.append((i1, j1, k1))
            i1, j1, k1 = i2, j2, k2
    if k1:
        non_adjacent.append( (i1, j1, k1) )
    non_adjacent.append( (la, lb, 0) )
>> *)
Definition collapse_step (st : Match * list Match) (m : Match) :
    Match * list Match :=
  let '((i1, j1, k1), non_adjacent) := st in
  let '(i2, j2, k2) := m in
  if decide (i1 + k1 = i2 ∧ j1 + k1 = j2) then
    ((i1, j1, k1 + k2), non_adjacent)
  else
    ((i2, j2, k2),
     if decide (k1 ≠ 0) then non_adjacent ++ [(i1, j1, k1)] else non_adjacent).

Definition get_matching_blocks (a b : list A) : list Match :=
  let matching_blocks := merge_sort Match_le (gmb_loop a b).2 in
  let '((i1, j1, k1), non_adjacent) :=
    foldl collapse_step ((0, 0, 0), []) matching_blocks in
  let non_adjacent :=
    if decide (k1 ≠ 0) then non_adjacent ++ [(i1, j1, k1)] else non_adjacent in
  non_adjacent ++ [(length a, length b, 0)].

(** [_calculate_ratio(matches, length)]: [2.0 * matches / length], and
    [1.0] when [length] is zero. *)
Definition calculate_ratio (matches length : nat) : Q :=
  if decide (length ≠ 0)
  then (Z.of_nat (2 * matches) # Pos.of_nat length)%Q
  else 1%Q.

(** [sum(triple[-1] for triple in self.get_matching_blocks())] *)
Definition matches (a b : list A) : nat :=
  sum_list_with block_size (get_matching_blocks a b).

Definition ratio (a b : list A) : Q :=
  calculate_ratio (matches a b) (length a + length b).
End SequenceMatcher.

(** ** Whitespace and [str.strip]

    [str.strip()] removes from both ends the code points for which
    [str.isspace] holds (CPython's [_PyUnicode_IsWhitespace]). *)

Definition is_space (c : N) : bool :=
  ((9 <=? c) && (c <=? 13) || (28 <=? c) && (c <=? 32)
   || (c =? 133) || (c =? 160) || (c =? 5760)
   || (8192 <=? c) && (c <=? 8202) || (c =? 8232) || (c =? 8233)
   || (c =? 8239) || (c =? 8287) || (c =? 12288))%N.

Fixpoint lstrip (s : str) : str :=
  match s with
  | c :: s' => if is_space c then lstrip s' else s
  | [] => []
  end.

Definition rstrip (s : str) : str := reverse (lstrip (reverse s)).

Definition strip (s : str) : str := rstrip (lstrip s).

(** ** Values of type [Any]

    An argument annotated [Any] is a [str] or some other object; [O] is
    the type of the other objects. *)

Inductive PyValue (O : Type) : Type :=
| PyStr (s : str)
| PyObj (o : O).
Arguments PyStr {O} s.
Arguments PyObj {O} o.

(** [isinstance(item, str)] *)
Definition isinstance_str {O : Type} (item : PyValue O) : bool :=
  match item with
  | PyStr _ => true
  | PyObj _ => false
  end.

(** ** [normalize]

<<
    if not isinstance(item, str):
        return item
    return unicodedata.normalize("NFKD", item.strip())
>>
    The normal form is computed from the tables of the Unicode character
    database; [unicodedata.normalize("NFKD", _)] is a parameter. *)

Section Normalize.
Variable unicodedata_normalize_NFKD : str → str.

Definition normalize {O : Type} (item : PyValue O) : PyValue O :=
  if negb (isinstance_str item) then item
  else match item with
       | PyStr s => PyStr (unicodedata_normalize_NFKD (strip s))
       | PyObj _ => item
       end.
End Normalize.

(** ** Pattern objects

    [re.Pattern.fullmatch] returns a match object, which is always true,
    or [None].  What an object with a method [fullmatch] does is in that
    method. *)

Record re_Match := mk_re_Match { span : nat * nat }.

Record PatternObject := mkPattern { fullmatch : str → option re_Match }.

(** [bool(m)] for [m] a match object or [None] *)
Definition bool_of_match (m : option re_Match) : bool :=
  match m with
  | Some _ => true
  | None => false
  end.

(** The regular expressions proper: the empty language, the empty word, a
    literal code point, a class given by inclusive ranges such as
    [[0-9a-f]], concatenation, alternation [|] and repetition [*]. *)
Inductive regex : Type :=
| Never
| Epsilon
| Chr (c : N)
| Class (ranges : list (N * N))
| Cat (r1 r2 : regex)
| Alt (r1 r2 : regex)
| Star (r : regex).

Definition in_class (ranges : list (N * N)) (c : N) : bool :=
  existsb (λ lh, (lh.1 <=? c) && (c <=? lh.2))%N ranges.

Fixpoint nullable (r : regex) : bool :=
  match r with
  | Never | Chr _ | Class _ => false
  | Epsilon | Star _ => true
  | Cat r1 r2 => nullable r1 && nullable r2
  | Alt r1 r2 => nullable r1 || nullable r2
  end.

(** The derivative of [r] by the code point [c]. *)
Fixpoint deriv (c : N) (r : regex) : regex :=
  match r with
  | Never | Epsilon => Never
  | Chr c' => if (c =? c')%N then Epsilon else Never
  | Class ranges => if in_class ranges c then Epsilon else Never
  | Cat r1 r2 =>
      if nullable r1 then Alt (Cat (deriv c r1) r2) (deriv c r2)
      else Cat (deriv c r1) r2
  | Alt r1 r2 => Alt (deriv c r1) (deriv c r2)
  | Star r1 => Cat (deriv c r1) (Star r1)
  end.

Fixpoint regex_matches (r : regex) (s : str) : bool :=
  match s with
  | [] => nullable r
  | c :: s' => regex_matches (deriv c r) s'
  end.

(** [re.compile(r)] *)
Definition re_compile (r : regex) : PatternObject :=
  {| fullmatch := λ s,
       if regex_matches r s then Some {| span := (0, length s) |} else None |}.

(** ** [text_match]

<<
    if hasattr(t1, 'fullmatch'):
        return bool(t1.fullmatch(t2))
    if ratio_limit >= 1:
        return t1 == t2
    return SequenceMatcher(None, t1, t2).ratio() >= ratio_limit
>>
    [t1] is a string or a compiled pattern (any object with a method
    [fullmatch]); a [str] has no attribute [fullmatch]. *)

(** [getattr(t1, 'fullmatch', None)] *)
Definition getattr_fullmatch (t1 : PyValue PatternObject) :
    option (str → option re_Match) :=
  match t1 with
  | PyStr _ => None
  | PyObj p => Some (fullmatch p)
  end.

Definition hasattr_fullmatch (t1 : PyValue PatternObject) : bool :=
  bool_decide (is_Some (getattr_fullmatch t1)).

Definition text_match (t1 : PyValue PatternObject) (t2 : str)
    (ratio_limit : Q) : bool :=
  match t1 with
  | PyObj p => bool_of_match (fullmatch p t2)
  | PyStr s =>
      if Qle_bool 1 ratio_limit then bool_decide (s = t2)
      else Qle_bool ratio_limit (ratio s t2)
  end.

(** ** [text_match] on floats that are no numbers

    [ratio_limit] is a Python float: beside the numbers it can be [inf],
    [-inf] or [nan].  A comparison is [False] as soon as one of its sides
    is [nan]. *)

Inductive PyFloat := Finite (q : Q) | PosInf | NegInf | NaN.

(** [x >= y] *)
Definition float_ge (x y : PyFloat) : bool :=
  match x, y with
  | NaN, _ | _, NaN => false
  | PosInf, _ => true
  | _, NegInf => true
  | Finite p, Finite q => Qle_bool q p
  | Finite _, PosInf => false
  | NegInf, _ => false
  end.

(** The body of [text_match] once more, its two comparisons read on all
    floats; on a number it is [text_match]. *)
Definition text_match_float (t1 : PyValue PatternObject) (t2 : str)
    (ratio_limit : PyFloat) : bool :=
  match t1 with
  | PyObj p => bool_of_match (fullmatch p t2)
  | PyStr s =>
      if float_ge ratio_limit (Finite 1) then bool_decide (s = t2)
      else float_ge (Finite (ratio s t2)) ratio_limit
  end.

(** ** [FuzzyText] *)

Module FuzzyText.
Record t := mk { text : str; ratio_limit : Q; match_ : option re_Match }.

(** [__init__] *)
Definition init (text : str) (ratio_limit : Q) : t :=
  {| text := text; ratio_limit := ratio_limit; match_ := None |}.

(** [return SequenceMatcher(None, self.text, text).ratio() >= self.ratio_limit] *)
Definition search (self : t) (candidate : str) : bool :=
  Qle_bool (ratio_limit self) (ratio (text self) candidate).
End FuzzyText.

(** ** Outcomes of a call

    A call returns a value or raises.  Neither [text_match] nor
    [FuzzyText.search] has a [raise] statement, and on a [str] (or pattern)
    first argument, a [str] second argument and a float ratio none of the
    operations they use raises: the outcome of such a call is the value
    computed above. *)

Inductive exception := InvalidArgument | TypeError.

Inductive outcome (R : Type) : Type :=
| Returns (r : R)
| Raises (e : exception).
Arguments Returns {R} r.
Arguments Raises {R} e.

Definition call_text_match (t1 : PyValue PatternObject) (t2 : str)
    (ratio_limit : Q) : outcome bool :=
  Returns (text_match t1 t2 ratio_limit).

Definition call_FuzzyText_search (text : str) (ratio_limit : Q)
    (candidate : str) : outcome bool :=
  Returns (FuzzyText.search (FuzzyText.init text ratio_limit) candidate).

(** ** [get_non_rec_text]

<<
    return ''.join(element.find_all(text=True, recursive=False)).strip()
>>
    [element] is an object of the document tree; the function uses nothing
    of it but the list that [find_all(text=True, recursive=False)]
    returns, the strings that are direct children of the element, in
    document order. *)

Record Element := mkElement { find_all_text_non_recursive : list str }.

Definition get_non_rec_text (element : Element) : str :=
  strip (mjoin (find_all_text_non_recursive element)).

(** * The persisted rule file

    [AutoScraper.save] and [AutoScraper.load] live in
    [autoscraper/auto_scraper.py], which is not among the sources at hand;
    only their tests ([tests/unit/test_save_load.py]) are.  The codec below
    is modelled from the specification (sections 4.5 and 6). *)

(** Modelled from the spec: the persisted rule file is "UTF-8 JSON"; this
    is a JSON document as the missing [load] gets it from its reader. *)
#[local] Unset Elimination Schemes.
Inductive json : Type :=
| JNull
| JBool (b : bool)
| JNumber (z : Z)
| JString (s : str)
| JArray (items : list json)
| JObject (members : list (str * json)).
#[local] Set Elimination Schemes.

(** The value of the member named [k] of an object; when a name is
    repeated the last member counts. *)
Fixpoint member (k : str) (members : list (str * json)) : option json :=
  match members with
  | [] => None
  | (k', v) :: rest =>
      match member k rest with
      | Some v' => Some v'
      | None => if decide (k' = k) then Some v else None
      end
  end.

Definition as_string (j : json) : option str :=
  match j with JString s => Some s | _ => None end.

Definition as_bool (j : json) : option bool :=
  match j with JBool b => Some b | _ => None end.

(** [None] (JSON [null]) or a string *)
Definition as_optional_string (j : json) : option (option str) :=
  match j with
  | JNull => Some None
  | JString s => Some (Some s)
  | _ => None
  end.

(** Modelled from the spec: the serialisation of an attribute signature,
    part of the missing [save]; "each Stack serializes the fields of §3
    with content as an array of [tag, attribute_map]". *)
Definition encode_attrs (attrs : gmap str str) : json :=
  JObject ((λ kv, (kv.1, JString kv.2)) <$> map_to_list attrs).

(** Modelled from the spec: the reading of an attribute signature, part of
    the missing [load]; an attribute map is an object whose values are
    strings. *)
Definition decode_attrs (j : json) : option (gmap str str) :=
  match j with
  | JObject members =>
      kvs ← mapM (λ kv, s ← as_string kv.2; Some (kv.1, s)) members;
      Some (list_to_map (reverse kvs))
  | _ => None
  end.

(** Modelled from the spec: one level of [content] in the missing [save]:
    the array [[tag, attribute_map]]. *)
Definition encode_level (level : str * gmap str str) : json :=
  JArray [JString level.1; encode_attrs level.2].

(** Modelled from the spec: one level of [content] in the missing [load]:
    "an array of [tag, attribute_map] (or historically [tag, attribute_map,
    extra]) pairs". *)
Definition decode_level (j : json) : option (str * gmap str str) :=
  match j with
  | JArray [JString tag; attrs] | JArray [JString tag; attrs; _] =>
      a ← decode_attrs attrs; Some (tag, a)
  | _ => None
  end.

(** Modelled from the spec: the record written by the missing [save] for
    one Stack, "each field serialized as named keys matching §3". *)
Definition encode_stack (s : Stack) : json :=
  JObject [
    (py "content", JArray (encode_level <$> content s));
    (py "wanted_attr",
       match wanted_attr s with Some a => JString a | None => JNull end);
    (py "is_full_url", JBool (is_full_url s));
    (py "is_non_rec_text", JBool (is_non_rec_text s));
    (py "url", JString (url s));
    (py "hash", JString (hash s));
    (py "stack_id", JString (stack_id s));
    (py "alias", JString (alias s))
  ].

(** Modelled from the spec: the Stack that the missing [load] rebuilds
    from one record, "preserving stack_id/hash/alias exactly as stored". *)
Definition decode_stack (j : json) : option Stack :=
  match j with
  | JObject members =>
      levels ← member (py "content") members
                 ≫= (λ c, match c with JArray l => Some l | _ => None end);
      content ← mapM decode_level levels;
      wanted_attr ← member (py "wanted_attr") members ≫= as_optional_string;
      is_full_url ← member (py "is_full_url") members ≫= as_bool;
      is_non_rec_text ← member (py "is_non_rec_text") members ≫= as_bool;
      url ← member (py "url") members ≫= as_string;
      hash ← member (py "hash") members ≫= as_string;
      stack_id ← member (py "stack_id") members ≫= as_string;
      alias ← member (py "alias") members ≫= as_string;
      Some (mkStack content wanted_attr is_full_url is_non_rec_text
                    url hash stack_id alias)
  | _ => None
  end.

(** Modelled from the spec: what the missing [load] finds at a path that
    exists, the text of a JSON document or text that "is not valid JSON
    (including empty input)". *)
Inductive file : Type :=
| JsonText (doc : json)
| NotJson.

(** Modelled from the spec: the two failures of the missing [load]. *)
Inductive load_error := NotFound | Malformed.

(** Modelled from the spec: the missing [load] rebuilds the rule set or
    fails. *)
Inductive load_result : Type :=
| Loaded (rule_set : list Stack)
| Failed (e : load_error).

(** Modelled from the spec: the missing [AutoScraper.save], which "writes
    the rule set as a JSON object with a single key "stack_list" mapping to
    the ordered array of Stack records". *)
Definition save (rule_set : list Stack) (file_path : str)
    (files : gmap str file) : gmap str file :=
  <[file_path :=
      JsonText (JObject [(py "stack_list", JArray (encode_stack <$> rule_set))])]>
    files.

(** Modelled from the spec: the array of records in the missing [load],
    which keeps the order of the array.  The spec does not say what a
    record that is no Stack does; here it makes the file malformed. *)
Definition decode_records (records : list json) : load_result :=
  match mapM decode_stack records with
  | Some rule_set => Loaded rule_set
  | None => Failed Malformed
  end.

(** Modelled from the spec: the missing [AutoScraper.load], which "accepts
    either that object shape or a bare JSON array of Stack records (legacy
    shape)", fails "with a NotFound error if the path does not exist, and a
    Malformed error if the content is not valid JSON (including empty
    input)", and decodes "by first attempting the object shape, falling
    back to the bare-array shape". *)
Definition load (file_path : str) (files : gmap str file) : load_result :=
  match files !! file_path with
  | None => Failed NotFound
  | Some NotJson => Failed Malformed
  | Some (JsonText (JObject members)) =>
      match member (py "stack_list") members with
      | Some (JArray records) => decode_records records
      | _ => Failed Malformed
      end
  | Some (JsonText (JArray records)) => decode_records records
  | Some (JsonText _) => Failed Malformed
  end.
(** * Properties *)

(** ** Deduplication of rules *)

(** [x] stands in [l] at the first place where its key occurs. *)
Definition first_with_key {A B : Type} (key : A → B) (x : A) (l : list A) : Prop :=
  ∃ l1 l2, l = l1 ++ x :: l2 ∧ key x ∉ key <$> l1.

(** The first occurrences of [l], position by position: the element at
    index [i] is kept exactly when its key does not occur among the [i]
    elements before it, and the elements kept stay in the order of [l]. *)
Definition first_occurrences {A B : Type} `{EqDecision B} (key : A → B)
    (l : list A) : list A :=
  (filter (λ ix, key ix.2 ∉ key <$> take ix.1 l) (imap pair l)).*2.

Record dedup_inv {A B : Type} (key : A → B) (pre out : list A) : Prop := {
  dedup_sublist : out `sublist_of` pre;
  dedup_NoDup : NoDup (key <$> out);
  dedup_keys : ∀ b, b ∈ key <$> pre ↔ b ∈ key <$> out;
  dedup_first : ∀ x, x ∈ out → first_with_key key x pre
}.

Lemma dedup_inv_nil {A B : Type} (key : A → B) : dedup_inv key [] [].
Proof.
  split; [done | constructor | done |].
  intros x Hx. by apply elem_of_nil in Hx.
Qed.

Lemma first_with_key_app {A B : Type} (key : A → B) x (l l' : list A) :
  first_with_key key x l → first_with_key key x (l ++ l').
Proof.
  intros (l1 & l2 & -> & Hn). exists l1, (l2 ++ l').
  by rewrite <- app_assoc.
Qed.

Lemma dedup_inv_skip {A B : Type} (key : A → B) pre out (x : A) :
  dedup_inv key pre out → key x ∈ key <$> pre →
  dedup_inv key (pre ++ [x]) out.
Proof.
  intros [Hs Hn Hk Hf] Hin. split.
  - by apply sublist_inserts_r.
  - done.
  - intros b. rewrite fmap_app, elem_of_app, <- Hk. simpl.
    rewrite list_elem_of_singleton. split; [|tauto].
    intros [?| ->]; done.
  - intros y Hy. by apply first_with_key_app, Hf.
Qed.

Lemma dedup_inv_keep {A B : Type} (key : A → B) pre out (x : A) :
  dedup_inv key pre out → key x ∉ key <$> pre →
  dedup_inv key (pre ++ [x]) (out ++ [x]).
Proof.
  intros [Hs Hn Hk Hf] Hnin. split.
  - by apply sublist_app.
  - rewrite fmap_app. apply NoDup_app. split; [done|]. split.
    + intros b Hb Hb'. simpl in Hb'. apply list_elem_of_singleton in Hb'.
      subst b. by apply Hnin, Hk.
    + simpl. apply NoDup_singleton.
  - intros b. rewrite !fmap_app, !elem_of_app, Hk. done.
  - intros y Hy. apply elem_of_app in Hy as [Hy|Hy].
    + by apply first_with_key_app, Hf.
    + apply list_elem_of_singleton in Hy. subst y.
      exists pre, []. done.
Qed.

Lemma unique_stack_loop_inv seen unique_list pre rest :
  (∀ h, h ∈ seen ↔ h ∈ hash <$> pre) →
  dedup_inv hash pre unique_list →
  dedup_inv hash (pre ++ rest) (unique_stack_loop seen unique_list rest).
Proof.
  revert seen unique_list pre.
  induction rest as [|stack rest IH]; intros seen unique_list pre Hseen Hinv.
  - by rewrite app_nil_r.
  - simpl. rewrite (cons_middle stack pre rest), app_assoc.
    destruct (decide (hash stack ∈ seen)) as [Hin|Hnin].
    + apply IH.
      * intros h. rewrite Hseen, fmap_app, elem_of_app. simpl.
        rewrite list_elem_of_singleton. split; [tauto|].
        intros [?| ->]; [done|]. by apply Hseen.
      * apply dedup_inv_skip; [done|]. by apply Hseen.
    + apply IH.
      * intros h. rewrite elem_of_union, elem_of_singleton, Hseen.
        rewrite fmap_app, elem_of_app. simpl.
        rewrite list_elem_of_singleton. tauto.
      * apply dedup_inv_keep; [done|]. by rewrite <- Hseen.
Qed.

(** ** Keeping the first element of each key

    Both deduplications compute [keep_new key [] l]: the elements of [l]
    whose key has not been seen, [seen] growing with each element kept. *)

Fixpoint keep_new {A B : Type} `{EqDecision B} (key : A → B) (seen : list B)
    (l : list A) : list A :=
  match l with
  | [] => []
  | x :: l' =>
      if decide (key x ∈ seen) then keep_new key seen l'
      else x :: keep_new key (seen ++ [key x]) l'
  end.

Section KeepNew.
Context {A B : Type} `{EqDecision B} (key : A → B).
Implicit Types (seen : list B) (l : list A).

Lemma keep_new_ext seen seen' l :
  (∀ b, b ∈ seen ↔ b ∈ seen') → keep_new key seen l = keep_new key seen' l.
Proof.
  revert seen seen'. induction l as [|x l IH]; intros seen seen' Hs; [done|].
  simpl. destruct (decide (key x ∈ seen)) as [Hin|Hnin].
  - rewrite decide_True by (by apply Hs). by apply IH.
  - rewrite decide_False by (by rewrite <- Hs). f_equal. apply IH.
    intros b. rewrite !elem_of_app, Hs. done.
Qed.

Lemma keep_new_app seen l1 l2 :
  keep_new key seen (l1 ++ l2)
  = keep_new key seen l1 ++ keep_new key (seen ++ (key <$> l1)) l2.
Proof.
  revert seen. induction l1 as [|x l1 IH]; intros seen; simpl.
  - by rewrite app_nil_r.
  - destruct (decide (key x ∈ seen)) as [Hin|Hnin].
    + rewrite IH. f_equal. apply keep_new_ext. intros b.
      rewrite !elem_of_app, elem_of_cons. split; [tauto|].
      intros [?|[->|?]]; auto.
    + simpl. rewrite IH. do 2 f_equal. apply keep_new_ext. intros b.
      rewrite !elem_of_app, !elem_of_cons, elem_of_nil. tauto.
Qed.

Lemma elem_of_keep_new_keys seen l b :
  b ∈ key <$> keep_new key seen l ↔ b ∈ key <$> l ∧ b ∉ seen.
Proof.
  revert seen. induction l as [|x l IH]; intros seen; simpl.
  - rewrite elem_of_nil. tauto.
  - destruct (decide (key x ∈ seen)) as [Hin|Hnin].
    + rewrite IH, elem_of_cons. split; [tauto|].
      intros [[->|?] ?]; tauto.
    + simpl. rewrite !elem_of_cons, IH, elem_of_app, list_elem_of_singleton.
      split.
      * intros [->|[? ?]]; tauto.
      * intros [[->|?] ?]; [tauto|].
        destruct (decide (b = key x)); tauto.
Qed.

Lemma keep_new_NoDup seen l : NoDup (key <$> keep_new key seen l).
Proof.
  revert seen. induction l as [|x l IH]; intros seen; simpl; [constructor|].
  destruct (decide (key x ∈ seen)); [apply IH|].
  simpl. constructor; [|apply IH].
  rewrite elem_of_keep_new_keys, elem_of_app, list_elem_of_singleton. tauto.
Qed.

Lemma keep_new_sublist seen l : keep_new key seen l `sublist_of` l.
Proof.
  revert seen. induction l as [|x l IH]; intros seen; simpl; [done|].
  destruct (decide (key x ∈ seen)).
  - by apply sublist_cons.
  - by apply sublist_skip.
Qed.

Lemma keep_new_NoDup_id seen l :
  NoDup (key <$> l) → (∀ b, b ∈ key <$> l → b ∉ seen) →
  keep_new key seen l = l.
Proof.
  revert seen. induction l as [|x l IH]; intros seen Hnd Hdisj; [done|].
  simpl in *. apply NoDup_cons in Hnd as [Hx Hnd].
  rewrite decide_False by (apply Hdisj; by left). f_equal.
  apply IH; [done|]. intros b Hb.
  rewrite elem_of_app, list_elem_of_singleton. intros [Hs| ->].
  - by apply (Hdisj b); [right|].
  - done.
Qed.

Lemma keep_new_id_NoDup seen l :
  keep_new key seen l = l →
  NoDup (key <$> l) ∧ ∀ b, b ∈ key <$> l → b ∉ seen.
Proof.
  intros Heq. split.
  - rewrite <- Heq. apply keep_new_NoDup.
  - intros b Hb. rewrite <- Heq in Hb.
    by apply elem_of_keep_new_keys in Hb as [_ ?].
Qed.

Lemma keep_new_idemp seen l :
  keep_new key seen (keep_new key seen l) = keep_new key seen l.
Proof.
  apply keep_new_NoDup_id; [apply keep_new_NoDup|].
  intros b Hb. by apply elem_of_keep_new_keys in Hb as [_ ?].
Qed.

Lemma keep_new_fmap seen l :
  key <$> keep_new key seen l = keep_new id seen (key <$> l).
Proof.
  revert seen. induction l as [|x l IH]; intros seen; simpl; [done|].
  change (id (key x)) with (key x).
  destruct (decide (key x ∈ seen)); [apply IH|].
  simpl. f_equal. apply IH.
Qed.

(** Merging: deduplicating [l1] first and then the whole is the same as
    deduplicating the whole. *)
Lemma keep_new_merge seen l1 l2 :
  keep_new key seen (keep_new key seen l1 ++ l2) = keep_new key seen (l1 ++ l2).
Proof.
  rewrite !keep_new_app, keep_new_idemp. f_equal.
  apply keep_new_ext. intros b.
  rewrite !elem_of_app, elem_of_keep_new_keys.
  destruct (decide (b ∈ seen)); tauto.
Qed.

Lemma keep_new_length seen l : length (keep_new key seen l) ≤ length l.
Proof. apply sublist_length, keep_new_sublist. Qed.
End KeepNew.

(** [keep_new] started on the keys of [pre] keeps of [l] the elements that
    [first_occurrences] keeps of [pre ++ l] at the positions of [l]. *)
Lemma keep_new_positions {A B : Type} `{EqDecision B} (key : A → B)
    (pre l : list A) :
  keep_new key (key <$> pre) l
  = (filter (λ ix, key ix.2 ∉ key <$> take ix.1 (pre ++ l))
       (imap (λ i x, (length pre + i, x)) l)).*2.
Proof.
  revert pre. induction l as [|x l IH]; intros pre; [done|].
  assert (Hrest :
    keep_new key (key <$> (pre ++ [x])) l
    = (filter (λ ix, key ix.2 ∉ key <$> take ix.1 (pre ++ x :: l))
         (imap ((λ i y, (length pre + i, y)) ∘ S) l)).*2).
  { rewrite IH. rewrite <- app_assoc. simpl. do 2 f_equal.
    apply imap_ext. intros i y _. simpl. rewrite length_app. simpl.
    f_equal. lia. }
  simpl. rewrite filter_cons. simpl.
  rewrite Nat.add_0_r, take_app_length.
  destruct (decide (key x ∈ key <$> pre)) as [Hin|Hnin].
  - rewrite decide_False by (intros Hn; by apply Hn).
    rewrite <- Hrest. apply keep_new_ext. intros b.
    rewrite fmap_app, elem_of_app. simpl. rewrite list_elem_of_singleton.
    split; [tauto|]. intros [?| ->]; done.
  - rewrite decide_True by done.
    by rewrite fmap_cons, <- Hrest, fmap_app.
Qed.

Lemma keep_new_first_occurrences {A B : Type} `{EqDecision B} (key : A → B)
    (l : list A) :
  keep_new key [] l = first_occurrences key l.
Proof.
  unfold first_occurrences. rewrite (keep_new_positions key [] l).
  simpl. do 2 f_equal.
Qed.

Lemma unique_stack_loop_keep_new seen seen_list unique_list stack_list :
  (∀ h, h ∈ seen ↔ h ∈ seen_list) →
  unique_stack_loop seen unique_list stack_list
  = unique_list ++ keep_new hash seen_list stack_list.
Proof.
  revert seen seen_list unique_list.
  induction stack_list as [|stack rest IH]; intros seen seen_list acc Hs; simpl.
  - by rewrite app_nil_r.
  - destruct (decide (hash stack ∈ seen)) as [Hin|Hnin].
    + rewrite decide_True by (by apply Hs). by apply IH.
    + rewrite decide_False by (by rewrite <- Hs).
      rewrite (IH _ (seen_list ++ [hash stack])).
      * by rewrite <- app_assoc.
      * intros h. rewrite elem_of_union, elem_of_singleton, elem_of_app,
          list_elem_of_singleton, Hs. tauto.
Qed.

Lemma unique_stack_list_keep_new stack_list :
  unique_stack_list stack_list = keep_new hash [] stack_list.
Proof.
  unfold unique_stack_list.
  rewrite (unique_stack_loop_keep_new ∅ []); [done|].
  intros h. set_solver.
Qed.

(** C5. [unique_stack_list] returns its input with every stack removed
    whose hash occurs at an earlier position: the stack at index [i] is
    kept exactly when no stack before index [i] carries its hash, and the
    stacks kept stay in the order of the input ([first_occurrences]).  So
    the output is a subsequence of the input that keeps, for each hash
    value, exactly the first stack carrying it: the hashes of the output
    are pairwise distinct, every hash of the input occurs in the output,
    every stack of the output stands in the input at the first occurrence
    of its hash, and two different positions of the output never carry the
    same hash. *)
Theorem unique_stack_list_first_by_hash (stack_list : list Stack) :
  let out := unique_stack_list stack_list in
  out = first_occurrences hash stack_list
  ∧ out `sublist_of` stack_list
  ∧ NoDup (hash <$> out)
  ∧ (∀ h, h ∈ hash <$> stack_list ↔ h ∈ hash <$> out)
  ∧ (∀ s, s ∈ out → first_with_key hash s stack_list)
  ∧ (∀ i j s s', out !! i = Some s → out !! j = Some s' →
       hash s = hash s' → i = j).
Proof.
  intros out.
  destruct (unique_stack_loop_inv ∅ [] [] stack_list) as [Hs Hn Hk Hf].
  { intros h. set_solver. }
  { apply dedup_inv_nil. }
  simpl in *. fold (unique_stack_list stack_list) in *. fold out in Hs, Hn, Hk, Hf.
  split.
  { unfold out. rewrite unique_stack_list_keep_new.
    apply keep_new_first_occurrences. }
  repeat split; try done; try apply Hk.
  intros i j s s' Hi Hj Heq.
  eapply NoDup_lookup; [exact Hn| |].
  - rewrite list_lookup_fmap, Hi. reflexivity.
  - rewrite list_lookup_fmap, Hj. simpl. by rewrite Heq.
Qed.

(** On [A; B; A'] with [A] and [A'] of one hash the rules kept are [A; B],
    in this order. *)
Example unique_stack_list_order :
  let stack h i := mkStack [] None false false [] (py h) (py i) [] in
  unique_stack_list [stack "A" "1"; stack "B" "2"; stack "A" "3"]
  = [stack "A" "1"; stack "B" "2"].
Proof. by vm_compute. Qed.

(** ** Deduplication of results *)

Section UniqueHashable.
Context {K B : Type} `{!Hashable K B} `{EqDecision B}.

Lemma od_setitem_keys {V : Type} (d : list (K * V)) k v :
  (od_setitem d k v).*1
  = if decide (dict_key k ∈ dict_key <$> d.*1) then d.*1 else d.*1 ++ [k].
Proof.
  unfold od_setitem.
  destruct (decide (dict_key k ∈ dict_key <$> d.*1)) as [Hin|Hnin].
  - rewrite <- list_fmap_compose. apply list_fmap_ext.
    intros i [k' v'] _. simpl.
    by destruct (decide (dict_key k' = dict_key k)).
  - by rewrite fmap_app.
Qed.

Lemma od_fromkeys_inv {V : Type} (value : V) (d : list (K * V)) pre rest :
  dedup_inv dict_key pre d.*1 →
  dedup_inv dict_key (pre ++ rest)
    (foldl (λ d k, od_setitem d k value) d rest).*1.
Proof.
  revert d pre. induction rest as [|k rest IH]; intros d pre Hinv.
  - by rewrite app_nil_r.
  - simpl. rewrite (cons_middle k pre rest), app_assoc. apply IH.
    rewrite od_setitem_keys.
    pose proof (dedup_keys _ _ _ Hinv (dict_key k)) as Hk.
    destruct (decide (dict_key k ∈ dict_key <$> d.*1)) as [Hin|Hnin].
    + apply dedup_inv_skip; [done|]. by apply Hk.
    + apply dedup_inv_keep; [done|]. by rewrite Hk.
Qed.

Lemma od_fromkeys_keep_new {V : Type} (value : V) (d : list (K * V))
    (rest : list K) :
  (foldl (λ d k, od_setitem d k value) d rest).*1
  = d.*1 ++ keep_new dict_key (dict_key <$> d.*1) rest.
Proof.
  revert d. induction rest as [|k rest IH]; intros d; simpl.
  - by rewrite app_nil_r.
  - rewrite IH, od_setitem_keys.
    destruct (decide (dict_key k ∈ dict_key <$> d.*1)); [done|].
    by rewrite <- app_assoc, fmap_app.
Qed.

Lemma unique_hashable_keep_new (l : list K) :
  unique_hashable l = keep_new dict_key [] l.
Proof.
  unfold unique_hashable, od_keys, od_fromkeys.
  by rewrite od_fromkeys_keep_new.
Qed.

(** C6. [unique_hashable] returns its input with every item removed that
    equals (as a dictionary key) an item at an earlier position: the item
    at index [i] is kept exactly when no item before index [i] is the same
    key, and the items kept stay in the order of the input
    ([first_occurrences]).  So its result is a subsequence of the input
    without repetition, with the same members, each standing in the input
    where it occurs first; and applying [unique_hashable] to its own
    output returns that output. *)
Theorem unique_hashable_first_occurrence_idempotent (hashable_items : list K) :
  let out := unique_hashable hashable_items in
  out = first_occurrences dict_key hashable_items
  ∧ out `sublist_of` hashable_items
  ∧ NoDup (dict_key <$> out)
  ∧ (∀ b, b ∈ dict_key <$> hashable_items ↔ b ∈ dict_key <$> out)
  ∧ (∀ x, x ∈ out → first_with_key dict_key x hashable_items)
  ∧ unique_hashable out = out.
Proof.
  intros out.
  destruct (od_fromkeys_inv () [] [] hashable_items) as [Hs Hn Hk Hf].
  { apply dedup_inv_nil. }
  simpl in Hs, Hn, Hk, Hf.
  change ((foldl (λ d k, od_setitem d k ()) [] hashable_items).*1) with out
    in Hs, Hn, Hk, Hf.
  split.
  { unfold out. rewrite unique_hashable_keep_new.
    apply keep_new_first_occurrences. }
  repeat split; try done; try apply Hk.
  unfold out. rewrite !unique_hashable_keep_new. apply keep_new_idemp.
Qed.
End UniqueHashable.

(** Where [==] is plain equality the keys are the items themselves: the
    result has no repeated item and the members of the input. *)
Lemma unique_hashable_NoDup {K : Type} `{EqDecision K} (l : list K) :
  NoDup (unique_hashable l) ∧ ∀ x, x ∈ l ↔ x ∈ unique_hashable l.
Proof.
  rewrite unique_hashable_keep_new. split.
  - rewrite <- (list_fmap_id (keep_new _ _ _)). apply (keep_new_NoDup id).
  - intros x. rewrite <- (list_fmap_id (keep_new _ _ _)).
    rewrite (elem_of_keep_new_keys id), list_fmap_id.
    split; [|tauto]. intros Hx. split; [done|]. apply not_elem_of_nil.
Qed.

(** [1] and [True] are one key: the one that comes first is kept, and a
    value-preserving deduplication can change what a later test sees. *)
Example unique_hashable_one_true :
  unique_hashable [PyInt 1; PyBool true; PyInt 2] = [PyInt 1; PyInt 2]
  ∧ unique_hashable [PyBool true; PyInt 1; PyInt 2] = [PyBool true; PyInt 2].
Proof. by vm_compute. Qed.

(** ** Two facts on [filter] *)

Lemma filter_ext_elem_of {A : Type} (P Q : A → Prop)
    `{!∀ x, Decision (P x), !∀ x, Decision (Q x)} (l : list A) :
  (∀ x, x ∈ l → P x ↔ Q x) → filter P l = filter Q l.
Proof.
  induction l as [|x l IH]; intros HPQ; [done|].
  rewrite !filter_cons.
  rewrite IH by (intros y Hy; apply HPQ; by right).
  apply decide_ext, HPQ. by left.
Qed.

Lemma StronglySorted_filter {A : Type} (R : relation A) (P : A → Prop)
    `{!∀ x, Decision (P x)} (l : list A) :
  StronglySorted R l → StronglySorted R (filter P l).
Proof.
  induction 1 as [|x l Hs IH Hx]; [constructor|].
  rewrite filter_cons. case_decide; [|done].
  constructor; [done|]. apply Forall_forall. intros y Hy.
  apply list_elem_of_filter in Hy as [_ Hy].
  rewrite Forall_forall in Hx. by apply Hx.
Qed.

(** ** The index [b2j] *)

Section Chain.
Context {A : Type} `{Countable A}.

(** The positions of [x] in [b], in increasing order. *)
Definition positions (x : A) (b : list A) : list nat :=
  filter (λ j, b !! j = Some x) (seq 0 (length b)).

Lemma positions_snoc x (b : list A) e :
  positions x (b ++ [e]) =
  positions x b ++ (if decide (e = x) then [length b] else []).
Proof.
  unfold positions. rewrite length_app. simpl.
  rewrite Nat.add_1_r, seq_S, filter_app. simpl. f_equal.
  - apply filter_ext_elem_of. intros j Hj.
    apply elem_of_seq in Hj. rewrite lookup_app_l by lia. done.
  - rewrite filter_cons, filter_nil.
    rewrite list_lookup_middle by done.
    destruct (decide (e = x)) as [->|Hne].
    + by rewrite decide_True.
    + rewrite decide_False; [done|]. congruence.
Qed.

Lemma elem_of_positions x (b : list A) j :
  j ∈ positions x b ↔ b !! j = Some x.
Proof.
  unfold positions. rewrite list_elem_of_filter, elem_of_seq.
  split; [tauto|]. intros Hj. split; [done|].
  apply lookup_lt_Some in Hj. lia.
Qed.

Lemma positions_sorted x (b : list A) : StronglySorted lt (positions x b).
Proof.
  unfold positions. apply StronglySorted_filter.
  generalize 0. induction (length b) as [|n IH]; intros s; simpl.
  - constructor.
  - constructor; [apply IH|]. apply Forall_forall. intros j Hj.
    apply elem_of_seq in Hj. lia.
Qed.

Lemma index_b_lookup (b : list A) x :
  index_b b !! x =
  if decide (positions x b = []) then None else Some (positions x b).
Proof.
  unfold index_b. induction b as [|e b IH] using rev_ind.
  - done.
  - rewrite imap_app, foldl_app. simpl. rewrite Nat.add_0_r.
    unfold setdefault_append at 1. simpl.
    rewrite positions_snoc.
    destruct (decide (e = x)) as [->|Hne].
    + rewrite lookup_insert_eq, IH.
      destruct (decide (positions x b = [])) as [->|Hn]; simpl.
      * done.
      * destruct (positions x b); [done|]. by rewrite decide_False.
    + rewrite lookup_insert_ne by done. by rewrite app_nil_r.
Qed.

Lemma chain_b_lookup (b : list A) x js :
  chain_b b !! x = Some js → js = positions x b.
Proof.
  unfold chain_b. intros Hl.
  apply map_lookup_filter_Some in Hl as [Hl _].
  rewrite index_b_lookup in Hl. by case_decide; simplify_eq.
Qed.

Lemma chain_b_elem_of (b : list A) x js j :
  chain_b b !! x = Some js → j ∈ js ↔ b !! j = Some x.
Proof. intros ->%chain_b_lookup. apply elem_of_positions. Qed.

Lemma chain_b_sorted (b : list A) x js :
  chain_b b !! x = Some js → StronglySorted lt js.
Proof. intros ->%chain_b_lookup. apply positions_sorted. Qed.
End Chain.

(** ** [find_longest_match] returns a block of equal elements inside its window *)

Section FindLongestMatch.
Context {A : Type} `{Countable A}.
Variables (a b : list A) (b2j : gmap A (list nat)).
Hypothesis b2j_sound :
  ∀ x js j, b2j !! x = Some js → j ∈ js → b !! j = Some x.
Variables (alo ahi blo bhi : nat).

(** Entry [j ↦ k] of the row of [i]: the [k] elements ending at [a[i]] and
    at [b[j]] agree, and they lie in the window. *)
Definition row_entry_ok (i j k : nat) : Prop :=
  k + alo ≤ i + 1 ∧ k + blo ≤ j + 1 ∧ j < bhi ∧ 1 ≤ k
  ∧ ∀ t, t < k → same_elt a b (i - t) (j - t) = true.

Definition row_ok (i : nat) (row : gmap nat nat) : Prop :=
  ∀ j k, row !! j = Some k → row_entry_ok i j k.

Definition prev_ok (i : nat) (j2len : gmap nat nat) : Prop :=
  ∀ j k, j2len !! j = Some k → ∃ i', i = S i' ∧ row_entry_ok i' j k.

Definition best_ok (m : Match) : Prop :=
  let '(besti, bestj, bestsize) := m in
  alo ≤ besti ∧ blo ≤ bestj
  ∧ (bestsize = 0 → besti = alo ∧ bestj = blo)
  ∧ (bestsize ≠ 0 → besti + bestsize ≤ ahi ∧ bestj + bestsize ≤ bhi)
  ∧ ∀ t, t < bestsize → same_elt a b (besti + t) (bestj + t) = true.

Lemma row_ok_prev i row : row_ok i row → prev_ok (S i) row.
Proof. intros Hrow j k Hjk. exists i. split; [done|]. by apply Hrow. Qed.

Lemma prev_ok_empty i : prev_ok i ∅.
Proof. intros j k Hjk. by rewrite lookup_empty in Hjk. Qed.

Lemma row_ok_empty i : row_ok i ∅.
Proof. intros j k Hjk. by rewrite lookup_empty in Hjk. Qed.

Lemma new_entry_ok i j x j2len :
  alo ≤ i → blo ≤ j → j < bhi →
  a !! i = Some x → b !! j = Some x → prev_ok i j2len →
  row_entry_ok i j (j2lenget_pred j2len j + 1).
Proof.
  intros Hi Hj Hjhi Ha Hb Hprev.
  assert (same_elt a b i j = true) as Hij.
  { unfold same_elt. rewrite Ha, Hb. by apply bool_decide_eq_true. }
  assert (∀ t, t < 0 + 1 → same_elt a b (i - t) (j - t) = true) as Hone.
  { intros t Ht. replace t with 0 by lia. by rewrite !Nat.sub_0_r. }
  unfold j2lenget_pred. destruct j as [|j'].
  { repeat split; try done; lia. }
  destruct (j2len !! j') as [k'|] eqn:Hk'; simpl.
  - destruct (Hprev _ _ Hk') as (i' & -> & Hk1 & Hk2 & Hk3 & Hk4 & Hk5).
    repeat split; try lia. intros [|t] Ht; [done|].
    simpl. apply Hk5. lia.
  - repeat split; try done; lia.
Qed.

Lemma scan_row_ok i x j2len js newj2len best :
  alo ≤ i → i < ahi → a !! i = Some x →
  (∀ j, j ∈ js → b !! j = Some x) →
  prev_ok i j2len → row_ok i newj2len → best_ok best →
  row_ok i (scan_row i blo bhi j2len js newj2len best).1
  ∧ best_ok (scan_row i blo bhi j2len js newj2len best).2.
Proof.
  intros Hi Hihi Ha. revert newj2len best.
  induction js as [|j js IH]; intros newj2len best Hjs Hprev Hrow Hbest.
  - done.
  - simpl. destruct (decide (j < blo)) as [Hlt|Hge].
    { apply IH; [|done..]. intros j' Hj'. apply Hjs. by right. }
    destruct (decide (bhi ≤ j)) as [Hbrk|Hj]; [done|].
    destruct best as [[besti bestj] bestsize].
    assert (b !! j = Some x) as Hb by (apply Hjs; by left).
    pose proof (new_entry_ok i j x j2len Hi ltac:(lia) ltac:(lia) Ha Hb Hprev)
      as Hk.
    apply IH.
    + intros j' Hj'. apply Hjs. by right.
    + done.
    + intros j' k'. rewrite lookup_insert.
      destruct (decide (j = j')) as [<-|_]; [|by apply Hrow].
      intros [= <-]. done.
    + destruct (decide (bestsize < j2lenget_pred j2len j + 1)); [|done].
      destruct Hk as (Hk1 & Hk2 & Hk3 & Hk4 & Hk5).
      simpl. repeat split; try lia.
      intros t Ht.
      replace (i + 1 - (j2lenget_pred j2len j + 1) + t)
        with (i - (j2lenget_pred j2len j - t)) by lia.
      replace (j + 1 - (j2lenget_pred j2len j + 1) + t)
        with (j - (j2lenget_pred j2len j - t)) by lia.
      apply Hk5. lia.
Qed.

Lemma scan_rows_fold_ok len s st :
  alo ≤ s → s + len ≤ ahi →
  prev_ok s st.1 → best_ok st.2 →
  best_ok (foldl (λ st i,
             match a !! i with
             | Some x => scan_row i blo bhi st.1 (default [] (b2j !! x)) ∅ st.2
             | None => (∅, st.2)
             end) st (seq s len)).2.
Proof.
  revert s st. induction len as [|len IH]; intros s st Hs Hlen Hprev Hbest.
  - done.
  - simpl.
    assert (∀ x j, j ∈ default [] (b2j !! x) → b !! j = Some x) as Hjs.
    { intros x j Hj. destruct (b2j !! x) as [js|] eqn:Hjs; simpl in Hj.
      - by eapply b2j_sound.
      - by apply elem_of_nil in Hj. }
    apply IH; [lia|lia|..].
    + destruct (a !! s) as [x|] eqn:Ha; [|apply prev_ok_empty].
      apply row_ok_prev.
      apply (scan_row_ok s x);
        [lia|lia|done|apply Hjs|done|apply row_ok_empty|done].
    + destruct (a !! s) as [x|] eqn:Ha; [|done].
      apply (scan_row_ok s x);
        [lia|lia|done|apply Hjs|done|apply row_ok_empty|done].
Qed.

Lemma scan_rows_ok : best_ok (scan_rows a b2j alo ahi blo bhi).2.
Proof.
  unfold scan_rows. destruct (decide (alo ≤ ahi)) as [Hle|Hgt].
  - apply scan_rows_fold_ok; [lia|lia|apply prev_ok_empty|].
    simpl. repeat split; try lia.
  - replace (ahi - alo) with 0 by lia. simpl. repeat split; try lia.
Qed.

Lemma extend_left_ok junk besti bestj bestsize :
  best_ok (besti, bestj, bestsize) →
  best_ok (extend_left a b alo blo junk besti bestj bestsize).
Proof.
  revert bestj bestsize.
  induction besti as [|i' IH]; intros bestj bestsize Hbest; [done|].
  destruct bestj as [|j']; [done|]. simpl.
  destruct (bool_decide (alo < S i') && bool_decide (blo < S j')
            && bool_decide (isbjunk b j' = junk) && same_elt a b i' j')
    eqn:Hguard; [|done].
  apply andb_prop in Hguard as [Hguard Hsame].
  apply andb_prop in Hguard as [Hguard _].
  apply andb_prop in Hguard as [Hi Hj].
  apply bool_decide_eq_true in Hi. apply bool_decide_eq_true in Hj.
  apply IH. destruct Hbest as (H1 & H2 & H3 & H4 & H5).
  repeat split; try lia.
  intros [|t] Ht.
  - by rewrite !Nat.add_0_r.
  - replace (i' + S t) with (S i' + t) by lia.
    replace (j' + S t) with (S j' + t) by lia. apply H5. lia.
Qed.

Lemma extend_right_loop_ok junk besti bestj rounds bestsize :
  best_ok (besti, bestj, bestsize) →
  best_ok (besti, bestj,
           extend_right_loop a b ahi bhi junk besti bestj rounds bestsize).
Proof.
  revert bestsize. induction rounds as [|rounds IH]; intros bestsize Hbest;
    [done|].
  simpl.
  destruct (bool_decide (besti + bestsize < ahi)
            && bool_decide (bestj + bestsize < bhi)
            && bool_decide (isbjunk b (bestj + bestsize) = junk)
            && same_elt a b (besti + bestsize) (bestj + bestsize))
    eqn:Hguard; [|done].
  apply andb_prop in Hguard as [Hguard Hsame].
  apply andb_prop in Hguard as [Hguard _].
  apply andb_prop in Hguard as [Hi Hj].
  apply bool_decide_eq_true in Hi. apply bool_decide_eq_true in Hj.
  apply IH. destruct Hbest as (H1 & H2 & H3 & H4 & H5).
  repeat split; try lia.
  intros t Ht. destruct (decide (t = bestsize)) as [->|Hne]; [done|].
  apply H5. lia.
Qed.

(** The loop on the right stops because its condition fails: the rounds
    it is given never run out first. *)
Lemma extend_right_loop_exit junk besti bestj rounds bestsize :
  ahi - (besti + bestsize) ≤ rounds →
  let size := extend_right_loop a b ahi bhi junk besti bestj rounds bestsize in
  bool_decide (besti + size < ahi) && bool_decide (bestj + size < bhi)
  && bool_decide (isbjunk b (bestj + size) = junk)
  && same_elt a b (besti + size) (bestj + size) = false.
Proof.
  revert bestsize. induction rounds as [|rounds IH]; intros bestsize Hr; simpl.
  - rewrite (bool_decide_eq_false_2 (besti + bestsize < ahi)) by lia. done.
  - destruct (bool_decide (besti + bestsize < ahi)
              && bool_decide (bestj + bestsize < bhi)
              && bool_decide (isbjunk b (bestj + bestsize) = junk)
              && same_elt a b (besti + bestsize) (bestj + bestsize))
      eqn:Hguard; [|done].
    apply IH. lia.
Qed.

Lemma extend_ok junk best :
  best_ok best → best_ok (extend a b alo ahi blo bhi junk best).
Proof.
  destruct best as [[besti bestj] bestsize]. intros Hbest. unfold extend.
  pose proof (extend_left_ok junk _ _ _ Hbest) as Hl.
  destruct (extend_left a b alo blo junk besti bestj bestsize)
    as [[besti' bestj'] bestsize'].
  by apply extend_right_loop_ok.
Qed.

Lemma find_longest_match_ok :
  best_ok (find_longest_match a b b2j alo ahi blo bhi).
Proof.
  unfold find_longest_match. do 2 apply extend_ok. apply scan_rows_ok.
Qed.
End FindLongestMatch.

(** ** The loop of [get_matching_blocks] *)

Definition range_weight (r : Range) : nat :=
  let '(alo, ahi, blo, bhi) := r in 2 * (ahi - alo) + 1.

Definition range_cap (r : Range) : nat :=
  let '(alo, ahi, blo, bhi) := r in (ahi - alo) `min` (bhi - blo).

(** What the blocks found so far hold, plus what the windows still to be
    searched can hold at most. *)
Definition potential (st : list Range * list Match) : nat :=
  sum_list_with block_size st.2 + sum_list_with range_cap st.1.

Section MatchingBlocks.
Context {A : Type} `{Countable A}.
Variables (a b : list A) (b2j : gmap A (list nat)).
Hypothesis b2j_sound :
  ∀ x js j, b2j !! x = Some js → j ∈ js → b !! j = Some x.

Lemma gmb_step_done bl : gmb_step a b b2j ([], bl) = ([], bl).
Proof. done. Qed.

Lemma gmb_iter_done n bl : Nat.iter n (gmb_step a b b2j) ([], bl) = ([], bl).
Proof. induction n as [|n IH]; [done|]. simpl. by rewrite IH. Qed.

Lemma gmb_step_weight r q bl :
  sum_list_with range_weight (gmb_step a b b2j (r :: q, bl)).1
  < sum_list_with range_weight (r :: q).
Proof.
  destruct r as [[[alo ahi] blo] bhi]. unfold gmb_step. simpl.
  pose proof (find_longest_match_ok a b b2j b2j_sound alo ahi blo bhi) as Hok.
  destruct (find_longest_match a b b2j alo ahi blo bhi) as [[i j] k].
  destruct Hok as (H1 & H2 & H3 & H4 & _).
  destruct (decide (k ≠ 0)) as [Hk|Hk]; simpl; [|lia].
  specialize (H4 Hk).
  repeat case_decide; simpl; lia.
Qed.

(** The loop ends: once the number of rounds reaches the weight of the
    queue, the queue is empty. *)
Lemma gmb_iter_terminates n st :
  sum_list_with range_weight st.1 ≤ n →
  (Nat.iter n (gmb_step a b b2j) st).1 = [].
Proof.
  revert st. induction n as [|n IH]; intros [q bl] Hw; simpl in Hw.
  - destruct q as [|[[[??]?]?] q]; [done|]. simpl in Hw. lia.
  - rewrite Nat.iter_succ_r. destruct q as [|r q].
    + by rewrite gmb_step_done, gmb_iter_done.
    + apply IH. pose proof (gmb_step_weight r q bl). lia.
Qed.

Lemma gmb_step_potential st :
  potential (gmb_step a b b2j st) ≤ potential st.
Proof.
  destruct st as [[|r q] bl]; [done|].
  destruct r as [[[alo ahi] blo] bhi]. unfold gmb_step, potential. simpl.
  pose proof (find_longest_match_ok a b b2j b2j_sound alo ahi blo bhi) as Hok.
  destruct (find_longest_match a b b2j alo ahi blo bhi) as [[i j] k].
  destruct Hok as (H1 & H2 & H3 & H4 & _).
  destruct (decide (k ≠ 0)) as [Hk|Hk]; simpl; [|lia].
  specialize (H4 Hk). rewrite sum_list_with_app.
  change (sum_list_with block_size [(i, j, k)]) with (k + 0).
  repeat case_decide; simpl; lia.
Qed.

Lemma gmb_iter_potential n st :
  potential (Nat.iter n (gmb_step a b b2j) st) ≤ potential st.
Proof.
  induction n as [|n IH]; [done|]. simpl.
  etrans; [apply gmb_step_potential|done].
Qed.

(** When both sequences have length [n] and the potential is still [n],
    every window lies on the diagonal and every position is either known
    to carry equal elements or still inside a window. *)
Definition covered (n : nat) (st : list Range * list Match) : Prop :=
  (∀ alo ahi blo bhi, (alo, ahi, blo, bhi) ∈ st.1 → alo = blo ∧ ahi = bhi)
  ∧ ∀ p, p < n →
      a !! p = b !! p
      ∨ ∃ alo ahi blo bhi, (alo, ahi, blo, bhi) ∈ st.1 ∧ alo ≤ p < ahi.

Definition tight (n : nat) (st : list Range * list Match) : Prop :=
  potential st ≤ n ∧ (potential st = n → covered n st).

Lemma same_elt_lookup i j : same_elt a b i j = true → a !! i = b !! j.
Proof.
  unfold same_elt. destruct (a !! i), (b !! j); try done.
  by intros ->%bool_decide_eq_true.
Qed.

Lemma gmb_step_tight n st : tight n st → tight n (gmb_step a b b2j st).
Proof.
  intros [Hle Hcov]. split.
  { etrans; [apply gmb_step_potential|done]. }
  intros Heq.
  pose proof (gmb_step_potential st) as Hstep.
  specialize (Hcov ltac:(lia)).
  destruct st as [[|r q] bl]; [done|].
  destruct r as [[[alo ahi] blo] bhi].
  destruct Hcov as [Hdiag Hpos].
  destruct (Hdiag alo ahi blo bhi) as [<- <-]; [by left|].
  assert (potential ((alo, ahi, alo, ahi) :: q, bl) = n) as Hn.
  { apply Nat.le_antisymm; [exact Hle|]. by rewrite <- Heq. }
  clear Hstep Hle.
  unfold gmb_step, potential in *. simpl in *.
  pose proof (find_longest_match_ok a b b2j b2j_sound alo ahi alo ahi) as Hok.
  destruct (find_longest_match a b b2j alo ahi alo ahi) as [[i j] k].
  destruct Hok as (H1 & H2 & H3 & H4 & H5).
  destruct (decide (k ≠ 0)) as [Hk|Hk]; simpl in *.
  - specialize (H4 Hk). rewrite sum_list_with_app in Heq.
    change (sum_list_with block_size [(i, j, k)]) with (k + 0) in Heq.
    assert (i = j) as <-.
    { repeat case_decide; simpl in Heq; lia. }
    split.
    + intros alo' ahi' blo' bhi' Hin.
      assert ((alo', ahi', blo', bhi') ∈ q
              ∨ (alo', ahi', blo', bhi') = (alo, i, alo, i)
              ∨ (alo', ahi', blo', bhi') = (i + k, ahi, i + k, ahi))
        as [Hq|[Hl|Hr]].
      { clear -Hin. simpl in Hin.
        repeat case_decide; rewrite ?elem_of_cons in Hin; tauto. }
      * eapply Hdiag. right. exact Hq.
      * by simplify_eq.
      * by simplify_eq.
    + intros p Hp. simpl.
      destruct (Hpos p Hp) as [Hsame|Hwin]; [by left|].
      destruct Hwin as (alo' & ahi' & blo' & bhi' & Hin & Hp').
      apply elem_of_cons in Hin as [Hin|Hin].
      * injection Hin as -> -> -> ->.
        destruct (decide (p < i)) as [Hlt|Hge].
        { right. exists alo, i, alo, i.
          rewrite (decide_True (P := alo < i ∧ alo < i)) by lia.
          split; [|lia]. case_decide; [right; by left|by left]. }
        destruct (decide (p < i + k)) as [Hlt|Hge'].
        { left. replace p with (i + (p - i)) by lia.
          apply same_elt_lookup, H5. lia. }
        right. exists (i + k), ahi, (i + k), ahi.
        rewrite (decide_True (P := i + k < ahi ∧ i + k < ahi)) by lia.
        split; [by left|lia].
      * right. exists alo', ahi', blo', bhi'. split; [|done].
        repeat case_decide; rewrite ?elem_of_cons; auto.
  - assert (ahi - alo = 0) by lia.
    split.
    + intros alo' ahi' blo' bhi' Hin. by eapply Hdiag; right.
    + intros p Hp. destruct (Hpos p Hp) as [Hsame|Hwin]; [by left|].
      destruct Hwin as (alo' & ahi' & blo' & bhi' & Hin & Hp').
      apply elem_of_cons in Hin as [Hin|Hin];
        [injection Hin as -> -> -> ->; lia|].
      right. by exists alo', ahi', blo', bhi'.
Qed.

Lemma gmb_iter_tight m n st :
  tight n st → tight n (Nat.iter m (gmb_step a b b2j) st).
Proof.
  intros Ht. induction m as [|m IH]; [done|]. simpl. by apply gmb_step_tight.
Qed.
End MatchingBlocks.

(** ** The number of matched elements *)

Section Matches.
Context {A : Type} `{Countable A}.
Implicit Types a b : list A.

Lemma chain_b_sound b x js j :
  chain_b b !! x = Some js → j ∈ js → b !! j = Some x.
Proof. intros Hx Hj. by apply (chain_b_elem_of b x js j). Qed.

Global Instance Match_le_total : Total Match_le.
Proof. intros [[i1 j1] k1] [[i2 j2] k2]. unfold Match_le. lia. Qed.

(** [matching_blocks.sort()] leaves the blocks sorted. *)
Lemma sorted_matching_blocks (l : list Match) :
  Sorted Match_le (merge_sort Match_le l) ∧ merge_sort Match_le l ≡ₚ l.
Proof. split; [apply Sorted_merge_sort, _|apply merge_sort_Permutation]. Qed.

Lemma collapse_fold_sum (l : list Match) (st : Match * list Match) :
  sum_list_with block_size (foldl collapse_step st l).2
  + block_size (foldl collapse_step st l).1
  = sum_list_with block_size st.2 + block_size st.1
    + sum_list_with block_size l.
Proof.
  revert st. induction l as [|[[i2 j2] k2] l IH]; intros st; simpl; [lia|].
  rewrite IH. destruct st as [[[i1 j1] k1] non_adjacent]. simpl.
  destruct (decide (i1 + k1 = i2 ∧ j1 + k1 = j2)); simpl.
  - unfold block_size. simpl. lia.
  - destruct (decide (k1 ≠ 0)); simpl.
    + rewrite sum_list_with_app. unfold block_size. simpl. lia.
    + unfold block_size. simpl. lia.
Qed.

Lemma matches_gmb_loop a b :
  matches a b = sum_list_with block_size (gmb_loop a b).2.
Proof.
  unfold matches, get_matching_blocks.
  pose proof (collapse_fold_sum (merge_sort Match_le (gmb_loop a b).2)
                                ((0, 0, 0), [])) as Hsum.
  destruct (foldl collapse_step ((0, 0, 0), [])
              (merge_sort Match_le (gmb_loop a b).2))
    as [[[i1 j1] k1] non_adjacent].
  rewrite merge_sort_Permutation in Hsum. simpl in Hsum.
  rewrite sum_list_with_app. simpl.
  destruct (decide (k1 ≠ 0)).
  - rewrite sum_list_with_app. unfold block_size in *. simpl in *. lia.
  - unfold block_size in *. simpl in *. lia.
Qed.

(** The loop of [get_matching_blocks] has emptied its queue after the
    rounds it is given. *)
Lemma gmb_loop_terminates a b : (gmb_loop a b).1 = [].
Proof.
  unfold gmb_loop. apply gmb_iter_terminates.
  - apply chain_b_sound.
  - unfold gmb_rounds. simpl. lia.
Qed.

Lemma matches_potential a b : matches a b = potential (gmb_loop a b).
Proof.
  rewrite matches_gmb_loop. unfold potential.
  rewrite gmb_loop_terminates. simpl. lia.
Qed.

Lemma matches_le a b : matches a b ≤ length a `min` length b.
Proof.
  rewrite matches_potential. unfold gmb_loop.
  etrans; [apply gmb_iter_potential, chain_b_sound|].
  unfold potential. simpl. lia.
Qed.

Lemma matches_full_eq a b :
  length a = length b → matches a b = length a → a = b.
Proof.
  intros Hlen Hm. rewrite matches_potential in Hm.
  assert (tight a b (length a) (gmb_loop a b)) as [_ Hcov].
  { apply gmb_iter_tight; [apply chain_b_sound|]. split.
    - unfold potential. simpl. lia.
    - intros _. split.
      + intros alo ahi blo bhi Hin. simpl in Hin.
        apply list_elem_of_singleton in Hin. by simplify_eq.
      + intros p Hp. right. exists 0, (length a), 0, (length b).
        split; [by left|lia]. }
  destruct (Hcov Hm) as [_ Hpos]. rewrite gmb_loop_terminates in Hpos.
  apply list_eq. intros p. destruct (decide (p < length a)) as [Hp|Hp].
  - destruct (Hpos p Hp) as [Hsame|(?&?&?&?&Hin&_)]; [done|].
    by apply elem_of_nil in Hin.
  - rewrite !lookup_ge_None_2; [done|lia..].
Qed.
End Matches.

(** ** A sequence compared with itself *)

Section Diagonal.
Context {A : Type} `{Countable A}.
Variables (a : list A) (b2j : gmap A (list nat)).
Hypothesis b2j_positions : ∀ x js, b2j !! x = Some js → js = positions x a.

(** [a[p]] is a key of [b2j] (it has not been purged as popular). *)
Definition present (p : nat) : bool :=
  match a !! p with
  | Some x => bool_decide (is_Some (b2j !! x))
  | None => false
  end.

(** The length of the run of present elements that ends at [p]. *)
Fixpoint dlen (p : nat) : nat :=
  if present p then S (match p with 0 => 0 | S p' => dlen p' end) else 0.

Definition dprev (p : nat) : nat :=
  match p with 0 => 0 | S p' => dlen p' end.

Lemma dlen_eq p : dlen p = if present p then S (dprev p) else 0.
Proof. by destruct p. Qed.

Definition prev_diag (i : nat) (j2len : gmap nat nat) : Prop :=
  (∀ j, j2lenget_pred j2len j ≤ dprev j ∧ j2lenget_pred j2len j ≤ dprev i)
  ∧ j2lenget_pred j2len i = dprev i.

Definition row_diag (i : nat) (row : gmap nat nat) : Prop :=
  (∀ j k, row !! j = Some k → k ≤ dlen j ∧ k ≤ dlen i)
  ∧ default 0 (row !! i) = dlen i.

Definition best_diag (i : nat) (best : Match) : Prop :=
  best.1.1 = best.1.2 ∧ ∀ p, p < i → dlen p ≤ best.2.

Lemma row_diag_prev i row : row_diag i row → prev_diag (S i) row.
Proof.
  intros [Hrow Hi]. split; [|done].
  intros [|j]; simpl; [lia|].
  destruct (row !! j) as [k|] eqn:Hk; simpl; [|lia]. by apply Hrow.
Qed.

Lemma present_lookup p x js :
  a !! p = Some x → b2j !! x = Some js → present p = true.
Proof.
  intros Hp Hx. unfold present. rewrite Hp.
  apply bool_decide_eq_true. by exists js.
Qed.

Lemma scan_row_diag i x j2len :
  a !! i = Some x → is_Some (b2j !! x) → prev_diag i j2len →
  ∀ js newj2len best,
    StronglySorted lt js → (∀ j, j ∈ js → a !! j = Some x) →
    (∀ j k, newj2len !! j = Some k → k ≤ dlen j ∧ k ≤ dlen i) →
    best.1.1 = best.1.2 → (∀ p, p < i → dlen p ≤ best.2) →
    (i ∈ js ∨ (dlen i ≤ best.2 ∧ newj2len !! i = Some (dlen i))) →
    row_diag i (scan_row i 0 (length a) j2len js newj2len best).1
    ∧ best_diag (S i) (scan_row i 0 (length a) j2len js newj2len best).2.
Proof.
  intros Hi [js0 Hx] [Hprev Hprevi].
  pose proof (present_lookup i x js0 Hi Hx) as Hpi.
  induction js as [|j js IH];
    intros newj2len best Hsort Hjs Hrow Hdiag Hbest Hdone.
  - destruct Hdone as [Hin|[Hle Hrowi]]; [by apply elem_of_nil in Hin|].
    simpl. split; [split|split]; try done.
    + by rewrite Hrowi.
    + intros p Hp. destruct (decide (p = i)) as [->|]; [done|].
      apply Hbest. lia.
  - simpl. destruct (decide (j < 0)) as [?|_]; [lia|].
    assert (a !! j = Some x) as Hj by (apply Hjs; by left).
    destruct (decide (length a ≤ j)) as [Hge|_].
    { apply lookup_lt_Some in Hj. lia. }
    pose proof (present_lookup j x js0 Hj Hx) as Hpj.
    destruct best as [[besti bestj] bestsize]. simpl in Hdiag, Hbest, Hdone.
    apply StronglySorted_cons in Hsort as [Hhd Hsort].
    destruct (Hprev j) as [Hkj Hki].
    assert (j2lenget_pred j2len j + 1 ≤ dlen j) as Hkj'.
    { rewrite dlen_eq, Hpj. lia. }
    assert (j2lenget_pred j2len j + 1 ≤ dlen i) as Hki'.
    { rewrite dlen_eq, Hpi. lia. }
    assert (∀ j' k', <[j:=j2lenget_pred j2len j + 1]> newj2len !! j' = Some k'
                     → k' ≤ dlen j' ∧ k' ≤ dlen i) as Hrow'.
    { intros j' k'. rewrite lookup_insert.
      destruct (decide (j = j')) as [<-|_]; [|by apply Hrow].
      intros [= <-]. done. }
    assert (bestsize < j2lenget_pred j2len j + 1 → j = i) as Hupd.
    { intros Hlt. destruct (Nat.lt_trichotomy j i) as [Hji|[Hji|Hji]]; [|done|].
      - specialize (Hbest j Hji). lia.
      - destruct Hdone as [Hin|[Hle _]]; [|lia].
        apply elem_of_cons in Hin as [->|Hin]; [done|].
        rewrite Forall_forall in Hhd. specialize (Hhd i Hin). lia. }
    apply IH; try done.
    + intros j' Hj'. apply Hjs. by right.
    + destruct (decide (bestsize < j2lenget_pred j2len j + 1)) as [Hlt|];
        [|done].
      simpl. by rewrite (Hupd Hlt).
    + destruct (decide (bestsize < j2lenget_pred j2len j + 1)); simpl.
      * intros p Hp. specialize (Hbest p Hp). lia.
      * done.
    + destruct (decide (j = i)) as [->|Hne].
      * right. rewrite lookup_insert_eq.
        assert (j2lenget_pred j2len i + 1 = dlen i) as ->.
        { rewrite dlen_eq, Hpi. lia. }
        split; [|done].
        destruct (decide (bestsize < dlen i)); simpl; lia.
      * destruct Hdone as [Hin|[Hle Hrowi]].
        { apply elem_of_cons in Hin as [->|Hin]; [done|]. by left. }
        right. rewrite lookup_insert_ne by done. split; [|done].
        destruct (decide (bestsize < j2lenget_pred j2len j + 1)); simpl; lia.
Qed.

Lemma scan_rows_fold_diag len s st :
  prev_diag s st.1 → best_diag s st.2 →
  best_diag (s + len)
    (foldl (λ st i,
              match a !! i with
              | Some x =>
                  scan_row i 0 (length a) st.1 (default [] (b2j !! x)) ∅ st.2
              | None => (∅, st.2)
              end) st (seq s len)).2.
Proof.
  revert s st. induction len as [|len IH]; intros s st Hprev Hbest.
  - by rewrite Nat.add_0_r.
  - simpl. replace (s + S len) with (S s + len) by lia.
    assert (present s = false → row_diag s ∅ ∧ best_diag (S s) st.2) as Habs.
    { intros Hps. destruct Hbest as [Hd Hb]. split; [split|split]; try done.
      - rewrite dlen_eq, Hps. done.
      - intros p Hp. destruct (decide (p = s)) as [->|]; [|apply Hb; lia].
        rewrite dlen_eq, Hps. lia. }
    assert (row_diag s
              (match a !! s with
               | Some x =>
                   scan_row s 0 (length a) st.1 (default [] (b2j !! x)) ∅ st.2
               | None => (∅, st.2)
               end).1
            ∧ best_diag (S s)
              (match a !! s with
               | Some x =>
                   scan_row s 0 (length a) st.1 (default [] (b2j !! x)) ∅ st.2
               | None => (∅, st.2)
               end).2) as [Hrow Hbest'].
    { destruct (a !! s) as [x|] eqn:Hs.
      - destruct (b2j !! x) as [js|] eqn:Hx; simpl.
        + pose proof (b2j_positions x js Hx) as ->.
          destruct Hbest as [Hd Hb].
          apply (scan_row_diag s x); try done.
          * apply positions_sorted.
          * intros j. by rewrite elem_of_positions.
          * left. by apply elem_of_positions.
        + apply Habs. unfold present. rewrite Hs, Hx.
          apply bool_decide_eq_false. by intros [??].
      - apply Habs. unfold present. by rewrite Hs. }
    apply IH; [by apply row_diag_prev|done].
Qed.

Lemma scan_rows_diag :
  (scan_rows a b2j 0 (length a) 0 (length a)).2.1.1
  = (scan_rows a b2j 0 (length a) 0 (length a)).2.1.2.
Proof.
  unfold scan_rows. rewrite Nat.sub_0_r.
  apply (scan_rows_fold_diag (length a) 0 (∅, (0, 0, 0))).
  - split; [|done]. intros j. unfold j2lenget_pred.
    destruct j; simpl; rewrite ?lookup_empty; simpl; lia.
  - split; [done|]. intros p Hp. lia.
Qed.

Lemma same_elt_refl i : i < length a → same_elt a a i i = true.
Proof.
  intros Hi. unfold same_elt.
  destruct (lookup_lt_is_Some_2 a i Hi) as [x ->].
  by apply bool_decide_eq_true.
Qed.

Lemma isbjunk_false (b : list A) j : isbjunk b j = false.
Proof.
  unfold isbjunk, bjunk. destruct (b !! j); [|done].
  apply bool_decide_eq_false. set_solver.
Qed.

Lemma extend_left_diag besti bestsize :
  besti ≤ length a →
  extend_left a a 0 0 false besti besti bestsize = (0, 0, besti + bestsize).
Proof.
  revert bestsize. induction besti as [|i' IH]; intros bestsize Hle; [done|].
  simpl. rewrite isbjunk_false, same_elt_refl by lia.
  rewrite !bool_decide_eq_true_2 by (done || lia). simpl.
  rewrite IH by lia. f_equal. lia.
Qed.

Lemma extend_right_loop_diag rounds bestsize :
  bestsize + rounds ≤ length a →
  extend_right_loop a a (length a) (length a) false 0 0 rounds bestsize
  = bestsize + rounds.
Proof.
  revert bestsize. induction rounds as [|rounds IH]; intros bestsize Hle.
  - simpl. lia.
  - simpl. rewrite isbjunk_false, same_elt_refl by lia.
    rewrite !bool_decide_eq_true_2 by (done || lia). simpl.
    rewrite IH by lia. lia.
Qed.

Lemma find_longest_match_diag :
  find_longest_match a a b2j 0 (length a) 0 (length a) = (0, 0, length a).
Proof.
  unfold find_longest_match.
  pose proof scan_rows_diag as Hdiag.
  pose proof (scan_rows_ok a a b2j) as Hok.
  specialize (Hok ltac:(intros x js j Hx Hj;
    rewrite (b2j_positions x js Hx) in Hj; by apply elem_of_positions)
    0 (length a) 0 (length a)).
  destruct (scan_rows a b2j 0 (length a) 0 (length a)) as [row [[bi bj] bs]].
  simpl in Hdiag, Hok. subst bj. destruct Hok as (_ & _ & H0 & Hn0 & _).
  assert (bi + bs ≤ length a) as Hle.
  { destruct (decide (bs = 0)) as [Hz|Hnz].
    - destruct (H0 Hz). lia.
    - by destruct (Hn0 Hnz). }
  replace (extend a a 0 (length a) 0 (length a) false (row, (bi, bi, bs)).2)
    with (extend_right a a (length a) (length a) false
            (extend_left a a 0 0 false bi bi bs)) by reflexivity.
  rewrite extend_left_diag by lia.
  unfold extend_right. rewrite Nat.add_0_l.
  rewrite extend_right_loop_diag by lia.
  replace (bi + bs + (length a - (bi + bs))) with (length a) by lia.
  unfold extend, extend_left, extend_right.
  by rewrite Nat.add_0_l, Nat.sub_diag.
Qed.
End Diagonal.

Section MatchesRefl.
Context {A : Type} `{Countable A}.

Lemma gmb_loop_refl (a : list A) :
  (gmb_loop a a).2 = if decide (length a ≠ 0) then [(0, 0, length a)] else [].
Proof.
  unfold gmb_loop, gmb_rounds.
  replace (2 * length a + 1) with (S (2 * length a)) by lia.
  rewrite Nat.iter_succ_r. unfold gmb_step at 2. simpl.
  rewrite (find_longest_match_diag a (chain_b a) (chain_b_lookup a)).
  destruct (decide (length a ≠ 0)) as [Hn|Hn].
  - rewrite decide_False by lia. rewrite decide_False by lia.
    by rewrite gmb_iter_done.
  - by rewrite gmb_iter_done.
Qed.

Lemma matches_refl (a : list A) : matches a a = length a.
Proof.
  rewrite matches_gmb_loop, gmb_loop_refl.
  destruct (decide (length a ≠ 0)); simpl; unfold block_size; simpl; lia.
Qed.
End MatchesRefl.

(** ** The similarity ratio *)

Section Ratio.
Context {A : Type} `{Countable A}.
Implicit Types a b : list A.

Lemma Zpos_of_nat (t : nat) : t ≠ 0 → Z.pos (Pos.of_nat t) = Z.of_nat t.
Proof. intros Ht. rewrite <- positive_nat_Z. by rewrite Nat2Pos.id. Qed.

Lemma calculate_ratio_le_1 (m t : nat) :
  (1 <= calculate_ratio m t)%Q ↔ t ≤ 2 * m.
Proof.
  unfold calculate_ratio. destruct (decide (t ≠ 0)) as [Ht|Ht].
  - unfold Qle. simpl. rewrite Zpos_of_nat by done. lia.
  - split; [lia|]. intros _. apply Qle_refl.
Qed.

Lemma calculate_ratio_ge_1 (m t : nat) :
  2 * m ≤ t → (calculate_ratio m t <= 1)%Q.
Proof.
  intros Hm. unfold calculate_ratio. destruct (decide (t ≠ 0)) as [Ht|Ht].
  - unfold Qle. simpl. rewrite Zpos_of_nat by done. lia.
  - apply Qle_refl.
Qed.

Lemma calculate_ratio_nonneg (m t : nat) : (0 <= calculate_ratio m t)%Q.
Proof.
  unfold calculate_ratio. destruct (decide (t ≠ 0)) as [Ht|Ht].
  - unfold Qle. simpl. lia.
  - done.
Qed.

Lemma matches_twice_le a b : 2 * matches a b ≤ length a + length b.
Proof. pose proof (matches_le a b). lia. Qed.

Lemma ratio_nonneg a b : (0 <= ratio a b)%Q.
Proof. apply calculate_ratio_nonneg. Qed.

Lemma ratio_le_1 a b : (ratio a b <= 1)%Q.
Proof. apply calculate_ratio_ge_1, matches_twice_le. Qed.

Lemma ratio_ge_1_iff a b : (1 <= ratio a b)%Q ↔ a = b.
Proof.
  unfold ratio. rewrite calculate_ratio_le_1. split.
  - intros Hle. pose proof (matches_le a b) as Hm.
    apply matches_full_eq; lia.
  - intros <-. rewrite matches_refl. lia.
Qed.

Lemma ratio_eq_1_iff a b : (ratio a b == 1)%Q ↔ a = b.
Proof.
  rewrite <- ratio_ge_1_iff. split.
  - intros ->. apply Qle_refl.
  - intros Hle. apply Qle_antisym; [apply ratio_le_1|done].
Qed.
End Ratio.

(** ** Regular expressions: the matcher decides the language *)

(** [in_lang r s]: the whole of [s] is a word of [r]. *)
Inductive in_lang : regex → str → Prop :=
| in_epsilon : in_lang Epsilon []
| in_chr c : in_lang (Chr c) [c]
| in_cls ranges c : in_class ranges c = true → in_lang (Class ranges) [c]
| in_cat r1 r2 s1 s2 :
    in_lang r1 s1 → in_lang r2 s2 → in_lang (Cat r1 r2) (s1 ++ s2)
| in_alt_l r1 r2 s : in_lang r1 s → in_lang (Alt r1 r2) s
| in_alt_r r1 r2 s : in_lang r2 s → in_lang (Alt r1 r2) s
| in_star_nil r : in_lang (Star r) []
| in_star_app r s1 s2 :
    in_lang r s1 → in_lang (Star r) s2 → in_lang (Star r) (s1 ++ s2).

Lemma nullable_in_lang r : nullable r = true ↔ in_lang r [].
Proof.
  split.
  - induction r as [| | | |r1 IH1 r2 IH2|r1 IH1 r2 IH2|r IH]; simpl;
      intros Hn; try done.
    + constructor.
    + apply andb_prop in Hn as [H1 H2].
      change (@nil N) with (@nil N ++ []). constructor; auto.
    + apply orb_prop in Hn as [H1|H2];
        [apply in_alt_l|apply in_alt_r]; auto.
    + constructor.
  - intros Hin. remember [] as s eqn:Hs.
    induction Hin as [| | |r1 r2 s1 s2 _ IH1 _ IH2|r1 r2 s _ IH|r1 r2 s _ IH
                      | |]; simpl; try done.
    + apply app_eq_nil in Hs as [-> ->]. by rewrite IH1, IH2.
    + by rewrite IH.
    + rewrite IH by done. apply orb_true_r.
Qed.

Lemma deriv_sound c r s : in_lang (deriv c r) s → in_lang r (c :: s).
Proof.
  revert s. induction r as [| | c'| ranges |r1 IH1 r2 IH2|r1 IH1 r2 IH2|r IH];
    simpl; intros s Hin.
  - inversion Hin.
  - inversion Hin.
  - destruct (N.eqb_spec c c') as [->|Hne]; inversion Hin. constructor.
  - destruct (in_class ranges c) eqn:Hc; inversion Hin. by constructor.
  - destruct (nullable r1) eqn:Hn.
    + inversion Hin as [| | | | ? ? ? Hl | ? ? ? Hr | |]; subst.
      * inversion Hl as [| | |? ? s1 s2 H1 H2| | | |]; subst.
        change (c :: s1 ++ s2) with ((c :: s1) ++ s2). constructor; auto.
      * change (c :: s) with ([] ++ c :: s). constructor; auto.
        by apply nullable_in_lang.
    + inversion Hin as [| | |? ? s1 s2 H1 H2| | | |]; subst.
      change (c :: s1 ++ s2) with ((c :: s1) ++ s2). constructor; auto.
  - inversion Hin; subst; [apply in_alt_l|apply in_alt_r]; auto.
  - inversion Hin as [| | |? ? s1 s2 H1 H2| | | |]; subst.
    change (c :: s1 ++ s2) with ((c :: s1) ++ s2). constructor; auto.
Qed.

Lemma deriv_complete c r w s : in_lang r w → w = c :: s → in_lang (deriv c r) s.
Proof.
  intros Hin. revert s.
  induction Hin as [|c'|ranges c' Hc|r1 r2 s1 s2 H1 IH1 H2 IH2
                    |r1 r2 w H1 IH1|r1 r2 w H2 IH2| |r s1 s2 H1 IH1 H2 IH2];
    intros s Hw; simpl.
  - done.
  - injection Hw as -> <-. rewrite N.eqb_refl. constructor.
  - injection Hw as -> <-. rewrite Hc. constructor.
  - destruct s1 as [|c1 s1]; simpl in Hw.
    + apply nullable_in_lang in H1. rewrite H1. apply in_alt_r. auto.
    + injection Hw as -> <-.
      destruct (nullable r1); [apply in_alt_l|]; constructor; auto.
  - apply in_alt_l. auto.
  - apply in_alt_r. auto.
  - done.
  - destruct s1 as [|c1 s1]; simpl in Hw.
    + auto.
    + injection Hw as -> <-. constructor; auto.
Qed.

Lemma regex_matches_in_lang r s : regex_matches r s = true ↔ in_lang r s.
Proof.
  revert r. induction s as [|c s IH]; intros r; simpl.
  - apply nullable_in_lang.
  - rewrite IH. split; [apply deriv_sound|].
    intros Hin. by eapply deriv_complete.
Qed.

(** ** [strip] *)

Definition all_space (s : str) : Prop := Forall (λ c, is_space c = true) s.

Lemma lstrip_split s :
  ∃ l, s = l ++ lstrip s ∧ all_space l
       ∧ ∀ c, head (lstrip s) = Some c → is_space c = false.
Proof.
  induction s as [|c s (l & Hs & Hl & Hh)]; simpl.
  - exists []. split; [done|]. split; [constructor|done].
  - destruct (is_space c) eqn:Hc.
    + exists (c :: l). split; [by rewrite Hs at 1|].
      split; [by constructor|done].
    + exists []. split; [done|]. split; [constructor|].
      intros c' [= <-]. done.
Qed.

Lemma rstrip_split s :
  ∃ r, s = rstrip s ++ r ∧ all_space r
       ∧ ∀ c, last (rstrip s) = Some c → is_space c = false.
Proof.
  destruct (lstrip_split (reverse s)) as (l & Hs & Hl & Hh).
  exists (reverse l). unfold rstrip. split; [|split].
  - rewrite <- reverse_app, <- Hs. by rewrite reverse_involutive.
  - unfold all_space. by rewrite Forall_reverse.
  - intros c. rewrite last_reverse. apply Hh.
Qed.

(** [strip s] is [s] without a leading and a trailing run of whitespace,
    and it neither starts nor ends with whitespace. *)
Lemma strip_split s :
  ∃ l r, s = l ++ strip s ++ r ∧ all_space l ∧ all_space r
         ∧ (∀ c, head (strip s) = Some c → is_space c = false)
         ∧ (∀ c, last (strip s) = Some c → is_space c = false).
Proof.
  destruct (lstrip_split s) as (l & Hs & Hl & Hh).
  destruct (rstrip_split (lstrip s)) as (r & Hs' & Hr & Hlast).
  exists l, r. unfold strip. repeat split; try done.
  - by rewrite <- Hs'.
  - intros c Hc. apply Hh. rewrite Hs'.
    destruct (rstrip (lstrip s)); [done|]. done.
Qed.

(** ** Claims on [normalize], [text_match] and [FuzzyText] *)

(** C3. For a string, [normalize] returns the NFKD decomposition of the
    string with its surrounding whitespace trimmed (the whitespace is
    trimmed first, then the decomposition is applied); for every input
    that is not a string, [normalize] returns the input itself. *)
Theorem normalize_str_decomposed_trimmed_other_identity
    (unicodedata_normalize_NFKD : str → str) (O : Type) :
  (∀ s : str,
     normalize unicodedata_normalize_NFKD (PyStr s : PyValue O)
     = PyStr (unicodedata_normalize_NFKD (strip s))
     ∧ ∃ l r, s = l ++ strip s ++ r ∧ all_space l ∧ all_space r
              ∧ (∀ c, head (strip s) = Some c → is_space c = false)
              ∧ (∀ c, last (strip s) = Some c → is_space c = false))
  ∧ (∀ item : PyValue O,
       isinstance_str item = false →
       normalize unicodedata_normalize_NFKD item = item).
Proof.
  split.
  - intros s. split; [done|apply strip_split].
  - intros [s|o] Hi; done.
Qed.

(** Whitespace that the decomposition itself produces stays: U+00A8
    (diaeresis) is not whitespace and decomposes into a space followed by
    U+0308. *)
Remark normalize_keeps_decomposed_space
    (unicodedata_normalize_NFKD : str → str) (O : Type) :
  unicodedata_normalize_NFKD [168%N] = [32%N; 776%N] →
  normalize unicodedata_normalize_NFKD (PyStr [168%N] : PyValue O)
  = PyStr [32%N; 776%N].
Proof. intros Hd. unfold normalize. simpl. by rewrite <- Hd. Qed.

Lemma normalize_witness :
  normalize (λ s, s) (PyObj 123%Z : PyValue Z) = PyObj 123%Z
  ∧ normalize (λ s, s) (PyStr (py "  hello world  ") : PyValue Z)
    = PyStr (py "hello world").
Proof.
  split.
  - apply (normalize_str_decomposed_trimmed_other_identity (λ s, s) Z).
    reflexivity.
  - apply (normalize_str_decomposed_trimmed_other_identity (λ s, s) Z).
Defined.

Lemma Qle_bool_eq_bool_decide (x y : Q) (P : Prop) `{Decision P} :
  ((x <= y)%Q ↔ P) → Qle_bool x y = bool_decide P.
Proof.
  intros HP. apply eq_true_iff_eq.
  by rewrite Qle_bool_iff, bool_decide_eq_true.
Qed.

Lemma Qle_bool_false (x y : Q) : Qle_bool x y = false ↔ ¬ (x <= y)%Q.
Proof. rewrite <- Qle_bool_iff. by destruct (Qle_bool x y). Qed.

(** C1. A compiled regular expression matches exactly when the whole
    candidate is a word of the expression, whatever the ratio limit (and an
    object with a method [fullmatch] matches exactly when that method
    returns a match); a string with a ratio limit of at least 1 matches
    exactly when it equals the candidate; a string with a smaller ratio
    limit matches exactly when the SequenceMatcher ratio of the two strings
    is at least the limit. *)
Theorem text_match_regex_equality_ratio :
  (∀ (r : regex) (candidate : str) (ratio_limit : Q),
     text_match (PyObj (re_compile r)) candidate ratio_limit = true
     ↔ in_lang r candidate)
  ∧ (∀ (p : PatternObject) (candidate : str) (ratio_limit : Q),
       text_match (PyObj p) candidate ratio_limit = true
       ↔ is_Some (fullmatch p candidate))
  ∧ (∀ (s candidate : str) (ratio_limit : Q),
       (1 <= ratio_limit)%Q →
       text_match (PyStr s) candidate ratio_limit = true ↔ s = candidate)
  ∧ (∀ (s candidate : str) (ratio_limit : Q),
       ¬ (1 <= ratio_limit)%Q →
       text_match (PyStr s) candidate ratio_limit = true
       ↔ (ratio_limit <= ratio s candidate)%Q).
Proof.
  repeat split.
  - simpl. destruct (regex_matches r candidate) eqn:Hm; [|done].
    intros _. by apply regex_matches_in_lang.
  - intros Hin. apply regex_matches_in_lang in Hin. simpl. by rewrite Hin.
  - simpl. destruct (fullmatch p candidate); [by eexists|done].
  - simpl. by intros [m ->].
  - simpl. apply Qle_bool_iff in H. rewrite H. apply bool_decide_eq_true.
  - intros ->. simpl. apply Qle_bool_iff in H. rewrite H.
    by apply bool_decide_eq_true.
  - simpl. apply Qle_bool_false in H. rewrite H. apply Qle_bool_iff.
  - simpl. apply Qle_bool_false in H. rewrite H. apply Qle_bool_iff.
Qed.

Lemma text_match_witness :
  text_match (PyStr (py "hello")) (py "hello") 1 = true
  ∧ text_match (PyStr (py "hello")) (py "helo") (8 # 10) = true.
Proof.
  split.
  - apply (proj1 (proj2 (proj2 text_match_regex_equality_ratio))).
    + unfold Qle. simpl. lia.
    + reflexivity.
  - apply (proj2 (proj2 (proj2 text_match_regex_equality_ratio))).
    + unfold Qle. simpl. lia.
    + vm_compute. discriminate.
Defined.

(** C2 as stated fails: the ratio of [difflib] depends on the order of its
    arguments, and so does [text_match] below a ratio limit of 1. *)
Lemma text_match_symmetry_counterexample :
  text_match (PyStr (py "tide")) (py "diet") (1 # 2) = false
  ∧ text_match (PyStr (py "diet")) (py "tide") (1 # 2) = true
  ∧ ¬ (∀ (a b : str) (ratio_limit : Q),
         (ratio_limit < 1)%Q →
         text_match (PyStr a) b ratio_limit = text_match (PyStr b) a ratio_limit
         ∧ (0 <= ratio a b)%Q ∧ (ratio a b <= 1)%Q
         ∧ ((ratio a b == 1)%Q ↔ a = b)).
Proof.
  split; [by vm_compute|]. split; [by vm_compute|].
  intros Hsym.
  destruct (Hsym (py "tide") (py "diet") (1 # 2)) as [Heq _].
  { unfold Qlt. simpl. lia. }
  vm_compute in Heq. discriminate.
Qed.

(** C2, amended. For all strings [a] and [b] the similarity ratio lies in
    [[0,1]] and equals 1 exactly when the two strings are identical.
    (Nothing is said on exchanging the arguments.) *)
Theorem ratio_in_unit_interval_one_iff_identical (a b : str) :
  (0 <= ratio a b)%Q ∧ (ratio a b <= 1)%Q ∧ ((ratio a b == 1)%Q ↔ a = b).
Proof.
  split; [apply ratio_nonneg|]. split; [apply ratio_le_1|].
  apply ratio_eq_1_iff.
Qed.

(** C4 as stated fails for a ratio limit above 1: [search] compares the
    ratio with the limit, [text_match] compares the strings. *)
Lemma FuzzyText_search_counterexample :
  FuzzyText.search (FuzzyText.init (py "hello") (3 # 2)) (py "hello") = false
  ∧ text_match (PyStr (py "hello")) (py "hello") (3 # 2) = true
  ∧ ¬ (∀ (t : str) (r : Q) (c : str),
         FuzzyText.search (FuzzyText.init t r) c = text_match (PyStr t) c r).
Proof.
  split; [by vm_compute|]. split; [by vm_compute|].
  intros Hsame. specialize (Hsame (py "hello") (3 # 2) (py "hello")).
  vm_compute in Hsame. discriminate.
Qed.

(** C4, amended. For every reference string [t], candidate [c] and ratio
    limit [r] of at most 1, [FuzzyText(t, r).search(c)] returns the same
    boolean as [text_match(t, c, r)] on its non-regex path. *)
Theorem FuzzyText_search_text_match_upto_1 (t c : str) (r : Q) :
  (r <= 1)%Q →
  FuzzyText.search (FuzzyText.init t r) c = text_match (PyStr t) c r.
Proof.
  intros Hr. unfold FuzzyText.search. simpl.
  destruct (Qle_bool 1 r) eqn:H1; [|done].
  apply Qle_bool_iff in H1.
  apply Qle_bool_eq_bool_decide. rewrite <- ratio_ge_1_iff.
  assert (r == 1)%Q as -> by (by apply Qle_antisym). done.
Qed.

Lemma FuzzyText_search_text_match_witness :
  FuzzyText.search (FuzzyText.init (py "testing") (8 # 10)) (py "testin")
  = text_match (PyStr (py "testing")) (py "testin") (8 # 10).
Proof.
  apply FuzzyText_search_text_match_upto_1. unfold Qle. simpl. lia.
Defined.

(** C9 as stated fails: no call raises. *)
Lemma ratio_limit_out_of_range_counterexample :
  call_text_match (PyStr (py "a")) (py "a") (3 # 2) = Returns true
  ∧ call_FuzzyText_search (py "a") (3 # 2) (py "a") = Returns false
  ∧ ¬ (∀ (s c : str) (r : Q),
         ¬ (0 <= r ∧ r <= 1)%Q →
         call_text_match (PyStr s) c r = Raises InvalidArgument
         ∧ call_FuzzyText_search s r c = Raises InvalidArgument).
Proof.
  split; [by vm_compute|]. split; [by vm_compute|].
  intros Hraise.
  destruct (Hraise (py "a") (py "a") (3 # 2)) as [Ht _]; [|discriminate].
  intros [_ Hle]. unfold Qle in Hle. simpl in Hle. lia.
Qed.

(** C9, amended. With a ratio limit outside [[0,1]] neither [text_match]
    (on a string pattern) nor [FuzzyText.search] raises; both return a
    boolean: above 1, [text_match] returns whether the two strings are
    equal and [search] returns false; below 0, both return true. *)
Theorem ratio_limit_out_of_range_returns (s c : str) (r : Q) :
  ¬ (0 <= r ∧ r <= 1)%Q →
  (∃ v, call_text_match (PyStr s) c r = Returns v)
  ∧ (∃ v, call_FuzzyText_search s r c = Returns v)
  ∧ ((1 < r)%Q →
       call_text_match (PyStr s) c r = Returns (bool_decide (s = c))
       ∧ call_FuzzyText_search s r c = Returns false)
  ∧ ((r < 0)%Q →
       call_text_match (PyStr s) c r = Returns true
       ∧ call_FuzzyText_search s r c = Returns true).
Proof.
  intros _. split; [by eexists|]. split; [by eexists|].
  unfold call_text_match, call_FuzzyText_search, FuzzyText.search. simpl.
  pose proof (ratio_le_1 s c) as Hle. pose proof (ratio_nonneg s c) as Hge.
  split.
  - intros Hr. split.
    + assert (Qle_bool 1 r = true) as ->; [|done].
      apply Qle_bool_iff. by apply Qlt_le_weak.
    + f_equal. apply Qle_bool_false. intros Hr'.
      apply (Qlt_irrefl 1). eapply Qlt_le_trans; [exact Hr|].
      by eapply Qle_trans.
  - intros Hr.
    assert (Qle_bool r (ratio s c) = true) as ->.
    { apply Qle_bool_iff. apply Qlt_le_weak. by eapply Qlt_le_trans. }
    split; [|done].
    assert (Qle_bool 1 r = false) as ->; [|done].
    apply Qle_bool_false. intros Hr'.
    apply (Qlt_irrefl r). eapply Qlt_le_trans; [exact Hr|].
    eapply Qle_trans; [|exact Hr']. unfold Qle. simpl. lia.
Qed.

Lemma ratio_limit_out_of_range_witness :
  call_text_match (PyStr (py "a")) (py "b") (3 # 2)
  = Returns (bool_decide (py "a" = py "b"))
  ∧ call_FuzzyText_search (py "a") (3 # 2) (py "b") = Returns false.
Proof.
  apply (ratio_limit_out_of_range_returns (py "a") (py "b") (3 # 2)).
  - intros [_ Hle]. unfold Qle in Hle. simpl in Hle. lia.
  - unfold Qlt. simpl. lia.
Defined.

(** C10. [text_match] takes the regex branch exactly when its first
    argument has an attribute [fullmatch]: a plain string has none and is
    compared by equality (ratio limit at least 1) or by similarity ratio;
    for an object that has the attribute the result is what its
    [fullmatch] says of the candidate, and the ratio limit has no effect. *)
Theorem text_match_branch_by_fullmatch_attribute :
  (∀ (s c : str) (r : Q),
     hasattr_fullmatch (PyStr s) = false
     ∧ text_match (PyStr s) c r
       = if Qle_bool 1 r then bool_decide (s = c) else Qle_bool r (ratio s c))
  ∧ (∀ (t1 : PyValue PatternObject) (c : str) (r r' : Q),
       hasattr_fullmatch t1 = true →
       text_match t1 c r = text_match t1 c r'
       ∧ ∃ fm, getattr_fullmatch t1 = Some fm
               ∧ text_match t1 c r = bool_of_match (fm c))
  ∧ (∀ t1 : PyValue PatternObject,
       hasattr_fullmatch t1 = false → ∃ s, t1 = PyStr s).
Proof.
  split; [|split].
  - intros s c r. by split.
  - intros [s|p] c r r' Hattr; [done|].
    split; [done|]. by exists (fullmatch p).
  - intros [s|p] Hattr; [by exists s|done].
Qed.

Lemma text_match_branch_witness :
  text_match (PyObj (re_compile (Cat (Chr 116) (Star (Class [(48, 57)]%N)))))
    (py "t123") 1
  = text_match (PyObj (re_compile (Cat (Chr 116) (Star (Class [(48, 57)]%N)))))
      (py "t123") 0.
Proof.
  apply (proj1 (proj2 text_match_branch_by_fullmatch_attribute)).
  reflexivity.
Defined.

(** ** The persisted rule file *)

Lemma decode_attrs_encode (attrs : gmap str str) :
  decode_attrs (encode_attrs attrs) = Some attrs.
Proof.
  unfold decode_attrs, encode_attrs.
  rewrite (mapM_fmap_Some _ (λ kv : str * str, (kv.1, JString kv.2)))
    by (by intros [??]).
  simpl. f_equal. rewrite <- (list_to_map_to_list attrs) at 2.
  apply list_to_map_proper.
  - rewrite fmap_reverse, reverse_Permutation. apply NoDup_fst_map_to_list.
  - apply reverse_Permutation.
Qed.

Lemma decode_level_encode (level : str * gmap str str) :
  decode_level (encode_level level) = Some level.
Proof.
  destruct level as [tag attrs].
  change (decode_level (encode_level (tag, attrs)))
    with (a ← decode_attrs (encode_attrs attrs); Some (tag, a)).
  by rewrite decode_attrs_encode.
Qed.

Lemma decode_stack_encode (s : Stack) : decode_stack (encode_stack s) = Some s.
Proof.
  destruct s as [c w fu nr u h sid al].
  unfold decode_stack, encode_stack.
  change (member (py "content") _) with (Some (JArray (encode_level <$> c))).
  change (member (py "wanted_attr") _)
    with (Some (match w with Some a => JString a | None => JNull end)).
  change (member (py "is_full_url") _) with (Some (JBool fu)).
  change (member (py "is_non_rec_text") _) with (Some (JBool nr)).
  change (member (py "url") _) with (Some (JString u)).
  change (member (py "hash") _) with (Some (JString h)).
  change (member (py "stack_id") _) with (Some (JString sid)).
  change (member (py "alias") _) with (Some (JString al)).
  simpl.
  rewrite (mapM_fmap_Some _ encode_level) by apply decode_level_encode.
  simpl. by destruct w.
Qed.

Lemma decode_records_encode (rule_set : list Stack) :
  decode_records (encode_stack <$> rule_set) = Loaded rule_set.
Proof.
  unfold decode_records.
  by rewrite (mapM_fmap_Some _ encode_stack) by apply decode_stack_encode.
Qed.

(** The string stored in a record under the name [k]. *)
Definition stored_string (k : str) (record : json) : option str :=
  match record with
  | JObject members => member k members ≫= as_string
  | _ => None
  end.

(** A record and a rule agree on [stack_id], [hash] and [alias]. *)
Definition same_identity (record : json) (s : Stack) : Prop :=
  stored_string (py "stack_id") record = Some (stack_id s)
  ∧ stored_string (py "hash") record = Some (hash s)
  ∧ stored_string (py "alias") record = Some (alias s).

Lemma decode_stack_same_identity record s :
  decode_stack record = Some s → same_identity record s.
Proof.
  destruct record as [| | | | |members]; try done.
  unfold decode_stack, same_identity, stored_string. intros Hd.
  simplify_option_eq. done.
Qed.

Lemma encode_stack_same_identity s : same_identity (encode_stack s) s.
Proof. apply decode_stack_same_identity, decode_stack_encode. Qed.

Lemma decode_records_same_identity records rule_set :
  decode_records records = Loaded rule_set →
  Forall2 same_identity records rule_set.
Proof.
  unfold decode_records.
  destruct (mapM decode_stack records) as [l|] eqn:Hm; [|done].
  intros [= <-]. apply mapM_Some_1 in Hm.
  eapply Forall2_impl; [exact Hm|]. apply decode_stack_same_identity.
Qed.

(** C7. Saving a rule set and loading the saved file yields the same rule
    set: the same rules in the same order, each with every field
    ([content], [wanted_attr], [is_full_url], [is_non_rec_text], [url],
    [hash], [stack_id], [alias]) as it was; the file holds one record per
    rule, in order, under the key ["stack_list"], and each record stores
    the [stack_id], [hash] and [alias] of its rule.  This holds for every
    rule set, so for every non-empty one. *)
Theorem save_load_round_trip (files : gmap str file) (file_path : str)
    (rule_set : list Stack) :
  load file_path (save rule_set file_path files) = Loaded rule_set
  ∧ ∃ records,
      save rule_set file_path files !! file_path
      = Some (JsonText (JObject [(py "stack_list", JArray records)]))
      ∧ Forall2 same_identity records rule_set.
Proof.
  split.
  - unfold load, save. rewrite lookup_insert_eq.
    change (member (py "stack_list") _)
      with (Some (JArray (encode_stack <$> rule_set))).
    apply decode_records_encode.
  - exists (encode_stack <$> rule_set). unfold save.
    rewrite lookup_insert_eq. split; [done|].
    apply Forall2_fmap_l, Forall_Forall2_diag, Forall_forall.
    intros s _. apply encode_stack_same_identity.
Qed.

(** A rule with an alias, a wanted attribute, a full URL and
    non-recursive text, and a second rule after it. *)
Definition example_rule : Stack :=
  {| content := [(py "div", ∅); (py "a", {[py "class" := py "link"]})];
     wanted_attr := Some (py "href");
     is_full_url := true;
     is_non_rec_text := true;
     url := py "https://example.com";
     hash := py "abc123";
     stack_id := py "rule_abc1";
     alias := py "links" |}.

Definition example_rule_2 : Stack :=
  {| content := [(py "span", {[py "class" := py ""; py "style" := py ""]})];
     wanted_attr := None;
     is_full_url := false;
     is_non_rec_text := false;
     url := py "";
     hash := py "def456";
     stack_id := py "rule_def456";
     alias := py "test" |}.

Lemma save_load_round_trip_witness :
  load (py "model.json")
       (save [example_rule; example_rule_2] (py "model.json") ∅)
  = Loaded [example_rule; example_rule_2].
Proof.
  apply (save_load_round_trip ∅ (py "model.json")
           [example_rule; example_rule_2]).
Defined.

(** C8. A file in the object shape [{"stack_list": [...]}] and a file that
    holds the same array bare (the legacy shape) load to the same result;
    when the array lists the records of a rule set, both load to that rule
    set; and whatever is loaded has one rule per record, in the order of
    the array, with [stack_id], [hash] and [alias] as the record stores
    them. *)
Theorem load_object_and_legacy_shape_agree (files : gmap str file)
    (new_path legacy_path : str) (records : list json) :
  files !! new_path
    = Some (JsonText (JObject [(py "stack_list", JArray records)])) →
  files !! legacy_path = Some (JsonText (JArray records)) →
  load new_path files = load legacy_path files
  ∧ (∀ rule_set, records = encode_stack <$> rule_set →
       load new_path files = Loaded rule_set
       ∧ load legacy_path files = Loaded rule_set)
  ∧ (∀ rule_set, load legacy_path files = Loaded rule_set →
       Forall2 same_identity records rule_set).
Proof.
  intros Hnew Hlegacy. unfold load. rewrite Hnew, Hlegacy.
  change (member (py "stack_list") _) with (Some (JArray records)).
  split; [done|]. split.
  - intros rule_set ->. by rewrite decode_records_encode.
  - apply decode_records_same_identity.
Qed.

Lemma load_object_and_legacy_shape_witness :
  load (py "new.json")
    {[ py "new.json" :=
         JsonText (JObject [(py "stack_list",
                             JArray (encode_stack <$> [example_rule_2]))]);
       py "legacy.json" :=
         JsonText (JArray (encode_stack <$> [example_rule_2])) ]}
  = Loaded [example_rule_2]
  ∧ load (py "legacy.json")
      {[ py "new.json" :=
           JsonText (JObject [(py "stack_list",
                               JArray (encode_stack <$> [example_rule_2]))]);
         py "legacy.json" :=
           JsonText (JArray (encode_stack <$> [example_rule_2])) ]}
    = Loaded [example_rule_2].
Proof.
  eapply (load_object_and_legacy_shape_agree _ (py "new.json")
            (py "legacy.json") (encode_stack <$> [example_rule_2])).
  - by vm_compute.
  - by vm_compute.
  - reflexivity.
Defined.

(** ** The unit tests of [tests/unit/test_utils.py], replayed on the
    embedding *)

Definition stack_with_hash (h : string) : Stack :=
  {| content := []; wanted_attr := None; is_full_url := false;
     is_non_rec_text := false; url := []; hash := py h; stack_id := [];
     alias := [] |}.

Example test_unique_stack_list_preserves_order :
  hash <$> unique_stack_list
             (stack_with_hash <$> ["aaa"; "bbb"; "ccc"; "bbb"]%string)
  = py <$> ["aaa"; "bbb"; "ccc"]%string.
Proof. by vm_compute. Qed.

Example test_unique_hashable_removes_duplicates :
  unique_hashable
    (py <$> ["apple"; "banana"; "apple"; "orange"; "banana"]%string)
  = py <$> ["apple"; "banana"; "orange"]%string.
Proof. by vm_compute. Qed.

Example test_unique_hashable_with_numbers :
  unique_hashable [1; 2; 1; 3; 2; 4] = [1; 2; 3; 4].
Proof. by vm_compute. Qed.

Example test_normalize_strips_whitespace :
  strip (py "  hello world  ") = py "hello world"
  ∧ strip (160%N :: py "hello" ++ [160%N]) = py "hello".
Proof. by vm_compute. Qed.

Example test_text_match_exact :
  text_match (PyStr (py "hello")) (py "hello") 1 = true
  ∧ text_match (PyStr (py "hello")) (py "world") 1 = false
  ∧ text_match (PyStr (py "Hello")) (py "hello") 1 = false
  ∧ text_match (PyStr []) [] 1 = true
  ∧ text_match (PyStr (py "hello")) [] 1 = false.
Proof. by vm_compute. Qed.

Example test_text_match_fuzzy :
  text_match (PyStr (py "hello")) (py "helo") (8 # 10) = true
  ∧ text_match (PyStr (py "hello")) (py "xyz") (8 # 10) = false
  ∧ text_match (PyStr (py "any")) (py "thing") 0 = true
  ∧ text_match (PyStr (py "testing")) (py "testin") (9 # 10) = true
  ∧ text_match (PyStr (py "testing")) (py "other") (9 # 10) = false.
Proof. by vm_compute. Qed.

(** The pattern [test[0-9]+]. *)
Definition test_digits : regex :=
  Cat (Chr 116) (Cat (Chr 101) (Cat (Chr 115) (Cat (Chr 116)
    (Cat (Class [(48, 57)]%N) (Star (Class [(48, 57)]%N)))))).

Example test_text_match_regex :
  text_match (PyObj (re_compile test_digits)) (py "test123") 1 = true
  ∧ text_match (PyObj (re_compile test_digits)) (py "test") 1 = false
  ∧ text_match (PyObj (re_compile test_digits)) (py "other") 1 = false.
Proof. by vm_compute. Qed.

Example test_FuzzyText_search :
  FuzzyText.search (FuzzyText.init (py "hello") 1) (py "hello") = true
  ∧ FuzzyText.search (FuzzyText.init (py "hello") 1) (py "world") = false
  ∧ FuzzyText.search (FuzzyText.init (py "testing") (8 # 10)) (py "testin")
    = true
  ∧ FuzzyText.search (FuzzyText.init (py "python") (7 # 10)) (py "pythons")
    = true
  ∧ FuzzyText.search (FuzzyText.init (py "python") (7 # 10)) (py "pyton")
    = true
  ∧ FuzzyText.search (FuzzyText.init (py "python") (7 # 10)) (py "abc")
    = false
  ∧ FuzzyText.search (FuzzyText.init (py "test") (3 # 10)) (py "t") = true.
Proof. by vm_compute. Qed.

(** The example of the documentation of [difflib]. *)
Example get_matching_blocks_abxcd :
  get_matching_blocks (py "abxcd") (py "abcd")
  = [(0, 0, 2); (3, 2, 2); (5, 4, 0)].
Proof. by vm_compute. Qed.

(** ** The deduplication and ratio theorems at concrete inputs *)

Lemma unique_stack_list_witness :
  NoDup (hash <$> unique_stack_list
                    (stack_with_hash <$> ["abc123"; "def456"; "abc123"]%string)).
Proof.
  apply (unique_stack_list_first_by_hash
           (stack_with_hash <$> ["abc123"; "def456"; "abc123"]%string)).
Defined.

Lemma unique_hashable_witness :
  unique_hashable (unique_hashable (py <$> ["z"; "a"; "m"; "a"; "z"]%string))
  = unique_hashable (py <$> ["z"; "a"; "m"; "a"; "z"]%string).
Proof.
  apply (unique_hashable_first_occurrence_idempotent
           (py <$> ["z"; "a"; "m"; "a"; "z"]%string)).
Defined.

Lemma ratio_witness : (ratio (py "python") (py "python") == 1)%Q.
Proof.
  apply (ratio_in_unit_interval_one_iff_identical (py "python") (py "python")).
  reflexivity.
Defined.

(** * Further properties of the utility layer *)

(** ** More on keeping the first element of each key *)

Section KeepNewMore.
Context {A B : Type} `{EqDecision B} (key : A → B).
Implicit Types (seen : list B) (l : list A).

Lemma keep_new_keep_new seen seen' l :
  (∀ b, b ∈ seen → b ∈ seen') →
  keep_new key seen' (keep_new key seen l) = keep_new key seen' l.
Proof.
  revert seen seen'. induction l as [|x l IH]; intros seen seen' Hs; [done|].
  simpl. destruct (decide (key x ∈ seen)) as [Hin|Hnin].
  - rewrite (decide_True (P := key x ∈ seen')) by auto. by apply IH.
  - simpl. destruct (decide (key x ∈ seen')) as [Hin'|Hnin'].
    + apply IH. intros b. rewrite elem_of_app, list_elem_of_singleton.
      intros [?| ->]; auto.
    + f_equal. apply IH. intros b.
      rewrite !elem_of_app, !list_elem_of_singleton. intros [?| ->]; auto.
Qed.

Lemma filter_keep_new_drop (P : A → Prop) `{!∀ x, Decision (P x)} b seen l :
  (∀ y, key y = b → ¬ P y) →
  filter P (keep_new key (seen ++ [b]) l) = filter P (keep_new key seen l).
Proof.
  intros Hb. revert seen. induction l as [|y l IH]; intros seen; [done|].
  simpl. destruct (decide (key y ∈ seen)) as [Hin|Hnin].
  - rewrite decide_True by (apply elem_of_app; by left). apply IH.
  - destruct (decide (key y = b)) as [Hy|Hy].
    + rewrite decide_True
        by (apply elem_of_app; right; by apply list_elem_of_singleton).
      rewrite filter_cons_False by (by apply Hb). by rewrite Hy.
    + rewrite decide_False.
      2:{ rewrite elem_of_app, list_elem_of_singleton. tauto. }
      rewrite !filter_cons.
      rewrite <- (IH (seen ++ [key y])).
      rewrite (keep_new_ext key ((seen ++ [b]) ++ [key y])
                 ((seen ++ [key y]) ++ [b])); [done|].
      intros c. rewrite !elem_of_app. tauto.
Qed.

Lemma keep_new_filter (P : A → Prop) `{!∀ x, Decision (P x)} seen l :
  (∀ x y, key x = key y → P x → P y) →
  keep_new key seen (filter P l) = filter P (keep_new key seen l).
Proof.
  intros HP. revert seen. induction l as [|x l IH]; intros seen; [done|].
  rewrite filter_cons. simpl. destruct (decide (P x)) as [Hx|Hx]; simpl.
  - destruct (decide (key x ∈ seen)); [apply IH|].
    rewrite filter_cons_True by done. f_equal. apply IH.
  - destruct (decide (key x ∈ seen)); [apply IH|].
    rewrite filter_cons_False by done. rewrite IH.
    symmetry. apply filter_keep_new_drop.
    intros y Hy Hpy. apply Hx. by apply (HP y x).
Qed.
End KeepNewMore.

(** ** More on [unique_stack_list] *)

(** X1. [unique_stack_list] returns its input unchanged exactly when the
    hashes of the input are pairwise distinct; applied to its own output
    it changes nothing. *)
Theorem unique_stack_list_fixed_iff_distinct (stack_list : list Stack) :
  (unique_stack_list stack_list = stack_list ↔ NoDup (hash <$> stack_list))
  ∧ unique_stack_list (unique_stack_list stack_list)
    = unique_stack_list stack_list.
Proof.
  rewrite !unique_stack_list_keep_new. split; [split|].
  - intros Heq. by apply keep_new_id_NoDup in Heq as [? _].
  - intros Hnd. apply keep_new_NoDup_id; [done|].
    intros b _ Hb. by apply elem_of_nil in Hb.
  - apply keep_new_idemp.
Qed.

(** X2. Appending new rules to old ones: deduplicating the joined list
    gives the same result whether or not the old rules were deduplicated
    before, and the rules kept from the old list come first, unchanged,
    in the result. *)
Theorem unique_stack_list_merge (old new : list Stack) :
  unique_stack_list (unique_stack_list old ++ new)
  = unique_stack_list (old ++ new)
  ∧ unique_stack_list old `prefix_of` unique_stack_list (old ++ new).
Proof.
  rewrite !unique_stack_list_keep_new. split.
  - apply keep_new_merge.
  - rewrite keep_new_app. by eexists.
Qed.

(** X3. The hashes of the rules that [unique_stack_list] keeps are the
    hashes of the input deduplicated by [unique_hashable]. *)
Theorem unique_stack_list_hashes (stack_list : list Stack) :
  hash <$> unique_stack_list stack_list
  = unique_hashable (hash <$> stack_list).
Proof.
  rewrite unique_stack_list_keep_new, unique_hashable_keep_new.
  apply keep_new_fmap.
Qed.

(** X4. [unique_stack_list] returns as many rules as the input has
    distinct hashes, never more rules than it was given. *)
Theorem unique_stack_list_length (stack_list : list Stack) :
  length (unique_stack_list stack_list)
  = size (list_to_set (hash <$> stack_list) : gset str)
  ∧ length (unique_stack_list stack_list) ≤ length stack_list.
Proof.
  rewrite unique_stack_list_keep_new. split; [|apply keep_new_length].
  rewrite <- (length_fmap hash).
  rewrite <- (size_list_to_set (C := gset str))
    by apply keep_new_NoDup.
  f_equal. apply set_eq. intros h.
  rewrite !elem_of_list_to_set, elem_of_keep_new_keys.
  split; [tauto|]. intros Hh. split; [done|]. apply not_elem_of_nil.
Qed.

(** ** More on [unique_hashable] *)

(** X5. [unique_hashable] returns its input unchanged exactly when the
    input has no repeated value. *)
Theorem unique_hashable_fixed_iff_NoDup {K : Type} `{EqDecision K}
    (hashable_items : list K) :
  unique_hashable hashable_items = hashable_items ↔ NoDup hashable_items.
Proof.
  rewrite unique_hashable_keep_new. split.
  - intros Heq. apply keep_new_id_NoDup in Heq as [Hnd _].
    by rewrite list_fmap_id in Hnd.
  - intros Hnd. apply keep_new_NoDup_id; [by rewrite list_fmap_id|].
    intros b _ Hb. by apply elem_of_nil in Hb.
Qed.

(** X6. Deduplicating two result lists separately, joining them and
    deduplicating again gives the same list as deduplicating the joined
    lists once; the deduplicated first list is a prefix of it. *)
Theorem unique_hashable_flatten {K : Type} `{EqDecision K} (l1 l2 : list K) :
  unique_hashable (unique_hashable l1 ++ unique_hashable l2)
  = unique_hashable (l1 ++ l2)
  ∧ unique_hashable l1 `prefix_of` unique_hashable (l1 ++ l2).
Proof.
  rewrite !unique_hashable_keep_new. split.
  - rewrite keep_new_merge, !keep_new_app. f_equal.
    apply keep_new_keep_new. intros b Hb. by apply elem_of_nil in Hb.
  - rewrite keep_new_app. by eexists.
Qed.

(** X7. [unique_hashable] commutes with a filter whose test does not tell
    equal keys apart (a test that gives one answer on any two items that
    are the same dictionary key): dropping the items that fail the test
    before or after the deduplication gives the same list. *)
Theorem unique_hashable_filter {K B : Type} `{!Hashable K B} `{EqDecision B}
    (P : K → Prop) `{!∀ x, Decision (P x)} (hashable_items : list K) :
  (∀ x y, dict_key x = dict_key y → P x → P y) →
  unique_hashable (filter P hashable_items)
  = filter P (unique_hashable hashable_items).
Proof.
  intros HP. rewrite !unique_hashable_keep_new. by apply keep_new_filter.
Qed.

Lemma unique_hashable_filter_witness :
  unique_hashable (filter (λ s, s ≠ []) (py <$> ["a"; ""; "b"; "a"; ""]%string))
  = filter (λ s, s ≠ []) (unique_hashable (py <$> ["a"; ""; "b"; "a"; ""]%string)).
Proof.
  apply (unique_hashable_filter (λ s : str, s ≠ [])
           (py <$> ["a"; ""; "b"; "a"; ""]%string)).
  intros x y Hxy. unfold dict_key, eq_Hashable, id in Hxy. by subst y.
Defined.

(** A test that tells [True] from [1] does not commute with the
    deduplication: on [[1, True, 2]] filtering the booleans first leaves
    [[True]], deduplicating first leaves nothing. *)
Definition is_bool (x : PyNumber) : bool :=
  match x with PyBool _ => true | PyInt _ => false end.

Example unique_hashable_filter_bool :
  unique_hashable (filter is_bool [PyInt 1; PyBool true; PyInt 2])
  = [PyBool true]
  ∧ filter is_bool (unique_hashable [PyInt 1; PyBool true; PyInt 2]) = [].
Proof. by vm_compute. Qed.

(** ** More on [strip], [normalize] and [get_non_rec_text] *)

Lemma lstrip_all_space_app (l s : str) : all_space l → lstrip (l ++ s) = lstrip s.
Proof.
  induction 1 as [|c l Hc _ IH]; [done|]. simpl. by rewrite Hc.
Qed.

Lemma lstrip_all_space (s : str) : all_space s → lstrip s = [].
Proof.
  intros Hs. rewrite <- (app_nil_r s). by rewrite lstrip_all_space_app.
Qed.

Lemma lstrip_head_id (s : str) :
  (∀ c, head s = Some c → is_space c = false) → lstrip s = s.
Proof.
  destruct s as [|c s]; [done|]. intros Hc. simpl.
  by rewrite (Hc c eq_refl).
Qed.

Lemma rstrip_all_space_app (s r : str) : all_space r → rstrip (s ++ r) = rstrip s.
Proof.
  intros Hr. unfold rstrip. rewrite reverse_app.
  rewrite lstrip_all_space_app; [done|].
  unfold all_space. by rewrite Forall_reverse.
Qed.

Lemma rstrip_last_id (s : str) :
  (∀ c, last s = Some c → is_space c = false) → rstrip s = s.
Proof.
  intros Hc. unfold rstrip. rewrite lstrip_head_id.
  - apply reverse_involutive.
  - intros c. rewrite head_reverse. apply Hc.
Qed.

(** [strip] is determined by what it removes and what it leaves. *)
Lemma strip_unique (s l t r : str) :
  s = l ++ t ++ r → all_space l → all_space r →
  (∀ c, head t = Some c → is_space c = false) →
  (∀ c, last t = Some c → is_space c = false) →
  strip s = t.
Proof.
  intros -> Hl Hr Hhead Hlast. unfold strip.
  rewrite lstrip_all_space_app by done.
  destruct t as [|c t].
  - simpl. by rewrite lstrip_all_space.
  - rewrite lstrip_head_id.
    + rewrite rstrip_all_space_app by done. by apply rstrip_last_id.
    + intros c' [= <-]. by apply Hhead.
Qed.

Lemma strip_nil_iff (s : str) : strip s = [] ↔ all_space s.
Proof.
  split.
  - intros Hs. destruct (strip_split s) as (l & r & Heq & Hl & Hr & _).
    rewrite Hs in Heq. rewrite Heq. unfold all_space in *.
    by apply Forall_app.
  - intros Hs. unfold strip. by rewrite lstrip_all_space.
Qed.

Lemma strip_idemp (s : str) : strip (strip s) = strip s.
Proof.
  destruct (strip_split s) as (l & r & _ & _ & _ & Hhead & Hlast).
  apply (strip_unique _ [] _ []); try done; [|constructor..].
  by rewrite app_nil_r.
Qed.

Lemma strip_surrounded (l s r : str) :
  all_space l → all_space r → strip (l ++ s ++ r) = strip s.
Proof.
  intros Hl Hr.
  destruct (strip_split s) as (l' & r' & Heq & Hl' & Hr' & Hhead & Hlast).
  apply (strip_unique _ (l ++ l') _ (r' ++ r)); try done.
  - rewrite Heq at 1. by rewrite <- !app_assoc.
  - unfold all_space in *. by apply Forall_app.
  - unfold all_space in *. by apply Forall_app.
Qed.

(** X8. [get_non_rec_text] returns the empty string exactly when every
    direct text node of the element consists of whitespace only (an
    element without direct text nodes included). *)
Theorem get_non_rec_text_empty_iff (element : Element) :
  get_non_rec_text element = []
  ↔ Forall all_space (find_all_text_non_recursive element).
Proof.
  unfold get_non_rec_text. rewrite strip_nil_iff.
  induction (find_all_text_non_recursive element) as [|piece pieces IH];
    simpl.
  - split; constructor.
  - unfold all_space at 1. rewrite Forall_app, Forall_cons. fold (all_space piece).
    by rewrite <- IH.
Qed.

(** X9. [get_non_rec_text] returns [t] exactly when the direct text
    nodes, joined in order, read as whitespace, then [t], then whitespace,
    with [t] neither starting nor ending with whitespace: whitespace
    inside and between the text nodes is kept. *)
Theorem get_non_rec_text_characterised (element : Element) (t : str) :
  get_non_rec_text element = t
  ↔ ∃ l r, mjoin (find_all_text_non_recursive element) = l ++ t ++ r
           ∧ all_space l ∧ all_space r
           ∧ (∀ c, head t = Some c → is_space c = false)
           ∧ (∀ c, last t = Some c → is_space c = false).
Proof.
  unfold get_non_rec_text. split.
  - intros <-. apply strip_split.
  - intros (l & r & Heq & Hl & Hr & Hhead & Hlast).
    by apply (strip_unique _ l t r).
Qed.

(** X10. [normalize] does not see the whitespace around a string: two
    strings that differ only by leading and trailing whitespace have the
    same normal form. *)
Theorem normalize_ignores_surrounding_whitespace
    (unicodedata_normalize_NFKD : str → str) (O : Type) (l s r : str) :
  all_space l → all_space r →
  normalize unicodedata_normalize_NFKD (PyStr (l ++ s ++ r) : PyValue O)
  = normalize unicodedata_normalize_NFKD (PyStr s).
Proof.
  intros Hl Hr. unfold normalize. simpl. by rewrite strip_surrounded.
Qed.

Lemma normalize_ignores_surrounding_whitespace_witness :
  normalize (λ s, s) (PyStr (py "  " ++ py "hello world" ++ py " ") : PyValue Z)
  = normalize (λ s, s) (PyStr (py "hello world")).
Proof.
  apply (normalize_ignores_surrounding_whitespace (λ s, s) Z).
  - by repeat constructor.
  - by repeat constructor.
Defined.

(** X11. On a string whose trimmed form the decomposition leaves as it is
    (text that is already decomposed), [normalize] returns the trimmed
    string, and normalizing that again changes nothing. *)
Theorem normalize_decomposed_idempotent
    (unicodedata_normalize_NFKD : str → str) (O : Type) (s : str) :
  unicodedata_normalize_NFKD (strip s) = strip s →
  normalize unicodedata_normalize_NFKD (PyStr s : PyValue O) = PyStr (strip s)
  ∧ normalize unicodedata_normalize_NFKD
      (normalize unicodedata_normalize_NFKD (PyStr s : PyValue O))
    = normalize unicodedata_normalize_NFKD (PyStr s).
Proof.
  intros Hfix. unfold normalize. simpl. rewrite Hfix. split; [done|].
  by rewrite strip_idemp, Hfix.
Qed.

Lemma normalize_decomposed_idempotent_witness :
  normalize (λ s, s) (PyStr (py " cafe ") : PyValue Z) = PyStr (py "cafe").
Proof.
  apply (normalize_decomposed_idempotent (λ s, s) Z (py " cafe ")).
  reflexivity.
Defined.

(** ** More on the similarity ratio *)

Section RatioMore.
Context {A : Type} `{Countable A}.
Implicit Types a b : list A.

(** The blocks that the loop of [get_matching_blocks] collects are runs of
    equal elements. *)
Definition block_run a b (m : Match) : Prop :=
  ∀ t, t < m.2 → same_elt a b (m.1.1 + t) (m.1.2 + t) = true.

Lemma gmb_step_block_run a b st :
  Forall (block_run a b) st.2 →
  Forall (block_run a b) (gmb_step a b (chain_b b) st).2.
Proof.
  intros Hbl. destruct st as [[|r q] bl]; [done|].
  destruct r as [[[alo ahi] blo] bhi]. unfold gmb_step. simpl.
  pose proof (find_longest_match_ok a b (chain_b b) (chain_b_sound b)
                alo ahi blo bhi) as Hok.
  destruct (find_longest_match a b (chain_b b) alo ahi blo bhi) as [[i j] k].
  destruct Hok as (_ & _ & _ & _ & Hrun).
  destruct (decide (k ≠ 0)); simpl; [|done].
  apply Forall_app. split; [done|]. by repeat constructor.
Qed.

Lemma gmb_loop_block_run a b : Forall (block_run a b) (gmb_loop a b).2.
Proof.
  unfold gmb_loop. induction (gmb_rounds a) as [|n IH]; simpl.
  - constructor.
  - by apply gmb_step_block_run.
Qed.

Lemma collapse_fold_block_run a b (l : list Match) (st : Match * list Match) :
  Forall (block_run a b) l → block_run a b st.1 →
  Forall (block_run a b) st.2 →
  block_run a b (foldl collapse_step st l).1
  ∧ Forall (block_run a b) (foldl collapse_step st l).2.
Proof.
  revert st. induction l as [|[[i2 j2] k2] l IH]; intros st Hl H1 H2; [done|].
  apply Forall_cons in Hl as [Hm Hl]. simpl. apply IH; [done|..];
    destruct st as [[[i1 j1] k1] non_adjacent]; simpl in *.
  - destruct (decide (i1 + k1 = i2 ∧ j1 + k1 = j2)) as [[<- <-]|]; [|done].
    intros t Ht. simpl in *. destruct (decide (t < k1)) as [Hlt|Hge].
    + by apply H1.
    + specialize (Hm (t - k1)). simpl in Hm.
      replace (i1 + k1 + (t - k1)) with (i1 + t) in Hm by lia.
      replace (j1 + k1 + (t - k1)) with (j1 + t) in Hm by lia.
      apply Hm. lia.
  - destruct (decide (i1 + k1 = i2 ∧ j1 + k1 = j2)); [done|]. simpl.
    destruct (decide (k1 ≠ 0)); [|done].
    apply Forall_app. split; [done|]. by repeat constructor.
Qed.

Lemma get_matching_blocks_block_run a b :
  Forall (block_run a b) (get_matching_blocks a b).
Proof.
  unfold get_matching_blocks.
  pose proof (collapse_fold_block_run a b
                (merge_sort Match_le (gmb_loop a b).2) ((0, 0, 0), [])) as Hc.
  destruct (foldl collapse_step ((0, 0, 0), [])
              (merge_sort Match_le (gmb_loop a b).2))
    as [[[i1 j1] k1] non_adjacent].
  destruct Hc as [H1 H2].
  { rewrite merge_sort_Permutation. apply gmb_loop_block_run. }
  { intros t Ht. simpl in Ht. lia. }
  { constructor. }
  simpl in H1, H2. apply Forall_app. split.
  - destruct (decide (k1 ≠ 0)); [|done].
    apply Forall_app. split; [done|]. by repeat constructor.
  - repeat constructor. intros t Ht. simpl in Ht. lia.
Qed.

Lemma gmb_loop_no_match a b :
  (find_longest_match a b (chain_b b) 0 (length a) 0 (length b)).2 = 0 →
  gmb_loop a b = ([], []).
Proof.
  intros Hk. unfold gmb_loop, gmb_rounds.
  replace (2 * length a + 1) with (S (2 * length a)) by lia.
  rewrite Nat.iter_succ_r. unfold gmb_step at 2. simpl.
  destruct (find_longest_match a b (chain_b b) 0 (length a) 0 (length b))
    as [[i j] k].
  simpl in Hk. subst k. simpl. apply gmb_iter_done.
Qed.

Lemma matches_no_match a b :
  (find_longest_match a b (chain_b b) 0 (length a) 0 (length b)).2 = 0 →
  matches a b = 0.
Proof.
  intros Hk. by rewrite matches_gmb_loop, gmb_loop_no_match.
Qed.

Lemma same_elt_common a b i j :
  same_elt a b i j = true → ∃ x, x ∈ a ∧ x ∈ b.
Proof.
  unfold same_elt. destruct (a !! i) as [x|] eqn:Ha; [|done].
  destruct (b !! j) as [y|] eqn:Hb; [|done].
  intros ->%bool_decide_eq_true. exists y.
  split; by eapply list_elem_of_lookup_2.
Qed.

Lemma matches_disjoint a b : (∀ x, x ∈ a → x ∉ b) → matches a b = 0.
Proof.
  intros Hdisj. apply matches_no_match.
  pose proof (find_longest_match_ok a b (chain_b b) (chain_b_sound b)
                0 (length a) 0 (length b)) as Hok.
  destruct (find_longest_match a b (chain_b b) 0 (length a) 0 (length b))
    as [[i j] k].
  destruct Hok as (_ & _ & _ & _ & Hrun). simpl.
  destruct k as [|k]; [done|]. exfalso.
  destruct (same_elt_common a b (i + 0) (j + 0)) as (x & Ha & Hb).
  { apply Hrun. lia. }
  by apply (Hdisj x).
Qed.

Lemma calculate_ratio_zero (t : nat) : t ≠ 0 → (calculate_ratio 0 t == 0)%Q.
Proof. intros Ht. unfold calculate_ratio. by rewrite decide_True. Qed.

Lemma scan_rows_no_keys a (b2j : gmap A (list nat)) alo ahi blo bhi :
  (∀ x, b2j !! x = None) →
  (scan_rows a b2j alo ahi blo bhi).2 = (alo, blo, 0).
Proof.
  intros Hnone. unfold scan_rows.
  generalize (∅ : gmap nat nat). generalize (ahi - alo). generalize alo at 2.
  intros s len. revert s. induction len as [|len IH]; intros s row; [done|].
  simpl. destruct (a !! s) as [x|]; [|apply IH].
  rewrite Hnone. simpl. apply IH.
Qed.

Lemma chain_b_all_popular b :
  200 ≤ length b →
  (∀ x, x ∈ b → length b / 100 + 1 < length (positions x b)) →
  ∀ x, chain_b b !! x = None.
Proof.
  intros Hlen Hpop x. unfold chain_b.
  apply map_lookup_filter_None. rewrite index_b_lookup.
  destruct (decide (positions x b = [])) as [Hnil|Hne]; [by left|].
  right. intros js [= <-]. simpl. intros Hnot. apply Hnot.
  unfold bpopular. rewrite decide_True by done.
  apply elem_of_dom. exists (positions x b).
  apply map_lookup_filter_Some. rewrite index_b_lookup.
  rewrite decide_False by done. split; [done|]. simpl.
  apply Hpop. destruct (positions x b) as [|j js] eqn:Hp; [done|].
  assert (j ∈ positions x b) as Hj by (rewrite Hp; by left).
  apply elem_of_positions in Hj. by eapply list_elem_of_lookup_2.
Qed.

Lemma find_longest_match_no_keys a b (b2j : gmap A (list nat)) :
  (∀ x, b2j !! x = None) → same_elt a b 0 0 = false →
  find_longest_match a b b2j 0 (length a) 0 (length b) = (0, 0, 0).
Proof.
  intros Hnone Hsame. unfold find_longest_match.
  rewrite scan_rows_no_keys by done.
  unfold extend, extend_left, extend_right. rewrite Nat.add_0_l.
  assert (∀ junk rounds,
            extend_right_loop a b (length a) (length b) junk 0 0 rounds 0 = 0)
    as Hloop.
  { intros junk [|rounds]; [done|]. simpl. rewrite Hsame.
    by rewrite !andb_false_r. }
  by rewrite !Hloop.
Qed.

Lemma positions_length_filter (x : A) b :
  length (positions x b) = length (filter (λ y, y = x) b).
Proof.
  induction b as [|e b IH] using rev_ind; [done|].
  rewrite positions_snoc, filter_app, !length_app, IH. f_equal.
  rewrite filter_cons, filter_nil. by destruct (decide (e = x)).
Qed.
End RatioMore.

(** ** More on [text_match] and [FuzzyText.search] *)

Lemma text_match_refl (s : str) (r : Q) : text_match (PyStr s) s r = true.
Proof.
  simpl. destruct (Qle_bool 1 r) eqn:Hr.
  - by apply bool_decide_eq_true.
  - apply Qle_bool_iff. apply Qle_bool_false in Hr.
    assert (ratio s s == 1)%Q as -> by (by apply ratio_eq_1_iff).
    apply Qlt_le_weak. by apply Qnot_le_lt.
Qed.

Lemma text_match_float_Finite (t1 : PyValue PatternObject) (t2 : str) (q : Q) :
  text_match_float t1 t2 (Finite q) = text_match t1 t2 q.
Proof. by destruct t1. Qed.

(** X12. A string matches itself under every ratio limit but [nan]: under
    every number, in range or not, under [inf] and under [-inf]
    [text_match(s, s, ratio_limit)] is [True], and under [nan] it is
    [False]. *)
Theorem text_match_self (s : str) (ratio_limit : PyFloat) :
  text_match_float (PyStr s) s ratio_limit = true ↔ ratio_limit ≠ NaN.
Proof.
  destruct ratio_limit as [q| | |].
  - rewrite text_match_float_Finite, text_match_refl. done.
  - simpl. rewrite bool_decide_eq_true. done.
  - done.
  - done.
Qed.

(** X13. Lowering the ratio limit never loses a match: what matches under
    a limit matches under every smaller one. *)
Theorem text_match_monotone (s c : str) (r r' : Q) :
  text_match (PyStr s) c r = true → (r' <= r)%Q →
  text_match (PyStr s) c r' = true.
Proof.
  intros Hm Hle. simpl in Hm. destruct (Qle_bool 1 r) eqn:Hr.
  - apply bool_decide_eq_true in Hm as <-. apply text_match_refl.
  - apply Qle_bool_iff in Hm. apply Qle_bool_false in Hr. simpl.
    destruct (Qle_bool 1 r') eqn:Hr'.
    + apply Qle_bool_iff in Hr'. destruct Hr. by eapply Qle_trans.
    + apply Qle_bool_iff. by eapply Qle_trans.
Qed.

Lemma text_match_monotone_witness :
  text_match (PyStr (py "testing")) (py "testin") (1 # 2) = true.
Proof.
  apply (text_match_monotone (py "testing") (py "testin") (9 # 10) (1 # 2)).
  - by vm_compute.
  - unfold Qle. simpl. lia.
Defined.

(** X14. With a ratio limit of 0 or less every pair of strings matches,
    for [text_match] and for [FuzzyText.search]. *)
Theorem nonpositive_limit_matches_all (s c : str) (r : Q) :
  (r <= 0)%Q →
  text_match (PyStr s) c r = true
  ∧ FuzzyText.search (FuzzyText.init s r) c = true.
Proof.
  intros Hr. pose proof (ratio_nonneg s c) as Hge.
  assert (Qle_bool r (ratio s c) = true) as Hrc.
  { apply Qle_bool_iff. by eapply Qle_trans. }
  split; [|done]. simpl.
  assert (Qle_bool 1 r = false) as ->; [|done].
  apply Qle_bool_false. intros H1.
  assert (1 <= 0)%Q as Habs by (by eapply Qle_trans).
  unfold Qle in Habs. simpl in Habs. lia.
Qed.

Lemma nonpositive_limit_matches_all_witness :
  text_match (PyStr (py "any")) (py "thing") 0 = true
  ∧ FuzzyText.search (FuzzyText.init (py "any") 0) (py "thing") = true.
Proof.
  apply (nonpositive_limit_matches_all (py "any") (py "thing") 0).
  unfold Qle. simpl. lia.
Defined.

Lemma calculate_ratio_mono (m m' t : nat) :
  m ≤ m' → (calculate_ratio m t <= calculate_ratio m' t)%Q.
Proof.
  intros Hm. unfold calculate_ratio. destruct (decide (t ≠ 0)) as [Ht|Ht].
  - unfold Qle. simpl. nia.
  - apply Qle_refl.
Qed.

Lemma ratio_le_length_bound (s c : str) :
  (ratio s c
   <= calculate_ratio (length s `min` length c) (length s + length c))%Q.
Proof. apply calculate_ratio_mono, matches_le. Qed.

(** X15. Below a ratio limit of 1 two strings can only match when their
    lengths are close: a match implies that the limit is at most the ratio
    of two strings of these lengths of which the shorter is part of the
    longer, [calculate_ratio(min(len(s), len(c)), len(s) + len(c))]. *)
Theorem text_match_length_bound (s c : str) (r : Q) :
  ¬ (1 <= r)%Q → text_match (PyStr s) c r = true →
  (r <= calculate_ratio (length s `min` length c) (length s + length c))%Q.
Proof.
  intros Hr Hm. simpl in Hm. apply Qle_bool_false in Hr. rewrite Hr in Hm.
  apply Qle_bool_iff in Hm.
  eapply Qle_trans; [exact Hm|]. apply ratio_le_length_bound.
Qed.

Lemma text_match_length_bound_witness :
  ((8 # 10)
   <= calculate_ratio (length (py "hello") `min` length (py "helo"))
        (length (py "hello") + length (py "helo")))%Q.
Proof.
  apply (text_match_length_bound (py "hello") (py "helo") (8 # 10)).
  - unfold Qle. simpl. lia.
  - by vm_compute.
Defined.

(** X16. Two strings without a common character, not both empty, have
    ratio 0 and match under no positive ratio limit. *)
Theorem text_match_disjoint (s c : str) :
  (∀ x, x ∈ s → x ∉ c) → s ≠ [] ∨ c ≠ [] →
  (ratio s c == 0)%Q
  ∧ ∀ r, (0 < r)%Q → text_match (PyStr s) c r = false.
Proof.
  intros Hdisj Hne.
  assert (length s + length c ≠ 0) as Ht.
  { destruct Hne as [Hs|Hc]; [destruct s|destruct c]; simpl; try done; lia. }
  assert (ratio s c == 0)%Q as H0.
  { unfold ratio. rewrite matches_disjoint by done.
    by apply calculate_ratio_zero. }
  split; [done|]. intros r Hr. simpl.
  destruct (Qle_bool 1 r).
  - apply bool_decide_eq_false. intros <-.
    destruct s as [|x s]; [by destruct Hne|].
    apply (Hdisj x); by left.
  - apply Qle_bool_false. rewrite H0. by apply Qlt_not_le.
Qed.

Lemma text_match_disjoint_witness :
  text_match (PyStr (py "hello")) (py "xyz") (8 # 10) = false.
Proof.
  apply (text_match_disjoint (py "hello") (py "xyz")).
  - intros x Hs Hc. revert Hs. apply (bool_decide_unpack _).
    revert x Hc. apply Forall_forall. by vm_compute; repeat constructor.
  - by left.
  - unfold Qlt. simpl. lia.
Defined.

(** X17. The work list of [get_matching_blocks] is empty when the rounds
    given to its loop are over, whatever the two strings: the loop ends,
    and running it any longer changes nothing. *)
Theorem get_matching_blocks_loop_ends (a b : str) (more_rounds : nat) :
  (gmb_loop a b).1 = []
  ∧ Nat.iter more_rounds (gmb_step a b (chain_b b)) (gmb_loop a b)
    = gmb_loop a b.
Proof.
  pose proof (gmb_loop_terminates a b) as Hq. split; [done|].
  destruct (gmb_loop a b) as [q bl]. simpl in Hq. subst q.
  apply gmb_iter_done.
Qed.

(** X18. Every block that [get_matching_blocks] reports is a run of equal
    characters of the two strings, and the list ends with the block
    [(len(a), len(b), 0)]. *)
Theorem get_matching_blocks_sound (a b : str) :
  (∀ i j k, (i, j, k) ∈ get_matching_blocks a b →
     ∀ t, t < k → ∃ x, a !! (i + t) = Some x ∧ b !! (j + t) = Some x)
  ∧ last (get_matching_blocks a b) = Some (length a, length b, 0).
Proof.
  split.
  - intros i j k Hin t Ht.
    pose proof (get_matching_blocks_block_run a b) as Hrun.
    rewrite Forall_forall in Hrun. specialize (Hrun _ Hin t Ht).
    simpl in Hrun. unfold same_elt in Hrun.
    destruct (a !! (i + t)) as [x|]; [|done].
    destruct (b !! (j + t)) as [y|]; [|done].
    apply bool_decide_eq_true in Hrun as ->. by exists y.
  - unfold get_matching_blocks.
    destruct (foldl collapse_step ((0, 0, 0), [])
                (merge_sort Match_le (gmb_loop a b).2))
      as [[[i1 j1] k1] non_adjacent].
    apply last_snoc.
Qed.

(** X19. The purge of popular characters can hide every similarity: when
    the candidate has at least 200 characters, each of them occurring more
    than [len(b) // 100 + 1] times, and the two strings do not start with
    the same character, the ratio is 0 and nothing matches under a ratio
    limit between 0 and 1. *)
Theorem text_match_all_popular (s c : str) :
  200 ≤ length c →
  Forall (λ x, length c / 100 + 1 < length (filter (λ y, y = x) c)) c →
  head s ≠ head c →
  (ratio s c == 0)%Q
  ∧ ∀ r, (0 < r)%Q → ¬ (1 <= r)%Q → text_match (PyStr s) c r = false.
Proof.
  intros Hlen Hpop Hhead.
  assert (matches s c = 0) as Hm.
  { apply matches_no_match. rewrite find_longest_match_no_keys; [done|..].
    - apply chain_b_all_popular; [done|]. intros x Hx.
      rewrite positions_length_filter.
      rewrite Forall_forall in Hpop. by apply Hpop.
    - unfold same_elt. rewrite <- !head_lookup.
      destruct (head s) as [x|], (head c) as [y|]; try done.
      apply bool_decide_eq_false. congruence. }
  assert (ratio s c == 0)%Q as H0.
  { unfold ratio. rewrite Hm. apply calculate_ratio_zero. lia. }
  split; [done|]. intros r Hr Hr1. simpl.
  apply Qle_bool_false in Hr1. rewrite Hr1.
  apply Qle_bool_false. rewrite H0. by apply Qlt_not_le.
Qed.

(** A string of 200 characters: [ab] a hundred times, and [ba] a hundred
    times. *)
Definition ab_100 : str := mjoin (replicate 100 (py "ab")).
Definition ba_100 : str := mjoin (replicate 100 (py "ba")).

Lemma text_match_all_popular_witness :
  text_match (PyStr ab_100) ba_100 (1 # 2) = false.
Proof.
  apply (text_match_all_popular ab_100 ba_100).
  - by vm_compute.
  - apply (bool_decide_unpack _). by vm_compute.
  - by vm_compute.
  - unfold Qlt. simpl. lia.
  - unfold Qle. simpl. lia.
Defined.

(** X20. [FuzzyText(t, r).search(t)], the search for the reference text
    itself, succeeds exactly when the ratio limit is at most 1. *)
Theorem FuzzyText_search_self_iff (t : str) (r : Q) :
  FuzzyText.search (FuzzyText.init t r) t = true ↔ (r <= 1)%Q.
Proof.
  unfold FuzzyText.search. simpl. rewrite Qle_bool_iff.
  assert (ratio t t == 1)%Q as -> by (by apply ratio_eq_1_iff). done.
Qed.

(** X21. [FuzzyText.search] never accepts what [text_match] rejects:
    whatever the ratio limit, a candidate found by [FuzzyText(t, r)] also
    matches [t] under [text_match] with the same limit. *)
Theorem FuzzyText_search_implies_text_match (t c : str) (r : Q) :
  FuzzyText.search (FuzzyText.init t r) c = true →
  text_match (PyStr t) c r = true.
Proof.
  unfold FuzzyText.search. simpl. intros Hs.
  destruct (Qle_bool 1 r) eqn:Hr; [|done].
  apply Qle_bool_iff in Hs, Hr. apply bool_decide_eq_true.
  apply ratio_ge_1_iff. by eapply Qle_trans.
Qed.

Lemma FuzzyText_search_implies_text_match_witness :
  text_match (PyStr (py "python")) (py "pyton") (7 # 10) = true.
Proof.
  apply FuzzyText_search_implies_text_match. by vm_compute.
Defined.

(** X22. The text that [get_non_rec_text] returns is already trimmed:
    [normalize] only decomposes it. *)
Theorem normalize_get_non_rec_text
    (unicodedata_normalize_NFKD : str → str) (O : Type) (element : Element) :
  normalize unicodedata_normalize_NFKD
    (PyStr (get_non_rec_text element) : PyValue O)
  = PyStr (unicodedata_normalize_NFKD (get_non_rec_text element)).
Proof.
  unfold normalize, get_non_rec_text. simpl. by rewrite strip_idemp.
Qed.

(** [isjunk] is [None]: no element is junk. *)
Lemma isbjunk_never {A : Type} `{Countable A} (b : list A) (j : nat) :
  isbjunk b j = false.
Proof.
  unfold isbjunk, bjunk. destruct (b !! j); [|done].
  apply bool_decide_eq_false. apply not_elem_of_empty.
Qed.

(** ** Two sequences that agree where both are defined

    When one sequence is a prefix of the other, the best match found by
    [find_longest_match] always lies on the diagonal, and it is extended
    to the whole of the shorter sequence. *)

Section CommonPrefix.
Context {A : Type} `{Countable A}.
Variables (a b : list A) (b2j : gmap A (list nat)).
Hypothesis b2j_positions : ∀ x js, b2j !! x = Some js → js = positions x b.
Hypothesis agree : ∀ p, p < length a → p < length b → a !! p = b !! p.

Definition present_c (p : nat) : bool :=
  match a !! p with
  | Some x => bool_decide (is_Some (b2j !! x))
  | None => false
  end.

Fixpoint clen (p : nat) : nat :=
  if present_c p then S (match p with 0 => 0 | S p' => clen p' end) else 0.

Definition cprev (p : nat) : nat :=
  match p with 0 => 0 | S p' => clen p' end.

Lemma clen_eq p : clen p = if present_c p then S (cprev p) else 0.
Proof. by destruct p. Qed.

Definition prev_c (i : nat) (j2len : gmap nat nat) : Prop :=
  (∀ j, j2lenget_pred j2len j ≤ cprev (j `min` i))
  ∧ (i < length b → j2lenget_pred j2len i = cprev i).

Definition row_c (i : nat) (row : gmap nat nat) : Prop :=
  (∀ j k, row !! j = Some k → k ≤ clen (j `min` i))
  ∧ (i < length b → default 0 (row !! i) = clen i).

Definition best_c (i : nat) (best : Match) : Prop :=
  best.1.1 = best.1.2 ∧ ∀ p, p < i → p < length b → clen p ≤ best.2.

Lemma row_c_prev i row : row_c i row → prev_c (S i) row.
Proof.
  intros [Hrow Hi]. split.
  - intros [|j]; simpl; [lia|].
    destruct (row !! j) as [k|] eqn:Hk; simpl; [|lia]. by apply Hrow.
  - intros Hlt. simpl. apply Hi. lia.
Qed.

Lemma present_c_lookup p x js :
  a !! p = Some x → b2j !! x = Some js → present_c p = true.
Proof.
  intros Hp Hx. unfold present_c. rewrite Hp.
  apply bool_decide_eq_true. by exists js.
Qed.

Lemma scan_row_c i x j2len :
  a !! i = Some x → is_Some (b2j !! x) → prev_c i j2len →
  ∀ js newj2len best,
    StronglySorted lt js → (∀ j, j ∈ js → b !! j = Some x) →
    (∀ j k, newj2len !! j = Some k → k ≤ clen (j `min` i)) →
    best.1.1 = best.1.2 →
    (∀ p, p < i → p < length b → clen p ≤ best.2) →
    (i < length b →
       i ∈ js ∨ (clen i ≤ best.2 ∧ newj2len !! i = Some (clen i))) →
    row_c i (scan_row i 0 (length b) j2len js newj2len best).1
    ∧ best_c (S i) (scan_row i 0 (length b) j2len js newj2len best).2.
Proof.
  intros Hi [js0 Hx] [Hprev Hprevi].
  pose proof (lookup_lt_Some _ _ _ Hi) as Hila.
  induction js as [|j js IH];
    intros newj2len best Hsort Hjs Hrow Hdiag Hbest Hdone.
  - simpl. split; [split|split]; try done.
    + intros Hlt. destruct (Hdone Hlt) as [Hin|[_ Hrowi]];
        [by apply elem_of_nil in Hin|]. by rewrite Hrowi.
    + intros p Hp Hplb. destruct (decide (p = i)) as [->|].
      * destruct (Hdone Hplb) as [Hin|[Hle _]];
          [by apply elem_of_nil in Hin|done].
      * apply Hbest; [lia|done].
  - simpl. destruct (decide (j < 0)) as [?|_]; [lia|].
    assert (b !! j = Some x) as Hj by (apply Hjs; by left).
    pose proof (lookup_lt_Some _ _ _ Hj) as Hjlb.
    destruct (decide (length b ≤ j)) as [?|_]; [lia|].
    destruct best as [[besti bestj] bestsize]. simpl in Hdiag, Hbest, Hdone.
    apply StronglySorted_cons in Hsort as [Hhd Hsort].
    assert (present_c (j `min` i) = true) as Hpm.
    { destruct (decide (j < i)) as [Hji|Hji].
      - rewrite Nat.min_l by lia. apply (present_c_lookup j x js0); [|done].
        rewrite agree by lia. done.
      - rewrite Nat.min_r by lia. by apply (present_c_lookup i x js0). }
    assert (j2lenget_pred j2len j + 1 ≤ clen (j `min` i)) as Hk.
    { rewrite clen_eq, Hpm. specialize (Hprev j). lia. }
    assert (bestsize < j2lenget_pred j2len j + 1 → j = i) as Hupd.
    { intros Hlt. destruct (Nat.lt_trichotomy j i) as [Hji|[Hji|Hji]]; [|done|].
      - specialize (Hbest j Hji Hjlb). rewrite Nat.min_l in Hk by lia. lia.
      - rewrite Nat.min_r in Hk by lia.
        destruct (Hdone ltac:(lia)) as [Hin|[Hle _]]; [|lia].
        apply elem_of_cons in Hin as [->|Hin]; [done|].
        rewrite Forall_forall in Hhd. specialize (Hhd i Hin). lia. }
    apply IH; try done.
    + intros j' Hj'. apply Hjs. by right.
    + intros j' k'. rewrite lookup_insert.
      destruct (decide (j = j')) as [<-|_]; [|by apply Hrow].
      intros [= <-]. done.
    + destruct (decide (bestsize < j2lenget_pred j2len j + 1)) as [Hlt|];
        [|done].
      simpl. by rewrite (Hupd Hlt).
    + destruct (decide (bestsize < j2lenget_pred j2len j + 1)); simpl.
      * intros p Hp Hplb. specialize (Hbest p Hp Hplb). lia.
      * done.
    + intros Hilb. destruct (decide (j = i)) as [->|Hne].
      * right. rewrite lookup_insert_eq.
        assert (j2lenget_pred j2len i + 1 = clen i) as ->.
        { rewrite Nat.min_id in Hpm. rewrite clen_eq, Hpm, Hprevi by done.
          lia. }
        split; [|done].
        destruct (decide (bestsize < clen i)); simpl; lia.
      * destruct (Hdone Hilb) as [Hin|[Hle Hrowi]].
        { apply elem_of_cons in Hin as [->|Hin]; [done|]. by left. }
        right. rewrite lookup_insert_ne by done. split; [|done].
        destruct (decide (bestsize < j2lenget_pred j2len j + 1)); simpl; lia.
Qed.

Lemma scan_rows_fold_c len s st :
  prev_c s st.1 → best_c s st.2 →
  best_c (s + len)
    (foldl (λ st i,
              match a !! i with
              | Some x =>
                  scan_row i 0 (length b) st.1 (default [] (b2j !! x)) ∅ st.2
              | None => (∅, st.2)
              end) st (seq s len)).2.
Proof.
  revert s st. induction len as [|len IH]; intros s st Hprev Hbest.
  - by rewrite Nat.add_0_r.
  - simpl. replace (s + S len) with (S s + len) by lia.
    assert (present_c s = false → row_c s ∅ ∧ best_c (S s) st.2) as Habs.
    { intros Hps. destruct Hbest as [Hd Hb]. split; [split|split]; try done.
      - intros _. rewrite clen_eq, Hps. done.
      - intros p Hp Hplb. destruct (decide (p = s)) as [->|];
          [|apply Hb; [lia|done]].
        rewrite clen_eq, Hps. lia. }
    assert (row_c s
              (match a !! s with
               | Some x =>
                   scan_row s 0 (length b) st.1 (default [] (b2j !! x)) ∅ st.2
               | None => (∅, st.2)
               end).1
            ∧ best_c (S s)
              (match a !! s with
               | Some x =>
                   scan_row s 0 (length b) st.1 (default [] (b2j !! x)) ∅ st.2
               | None => (∅, st.2)
               end).2) as [Hrow Hbest'].
    { destruct (a !! s) as [x|] eqn:Hs.
      - destruct (b2j !! x) as [js|] eqn:Hx; simpl.
        + pose proof (b2j_positions x js Hx) as ->.
          destruct Hbest as [Hd Hb].
          apply (scan_row_c s x); try done.
          * apply positions_sorted.
          * intros j. by rewrite elem_of_positions.
          * intros Hlt. left. apply elem_of_positions.
            rewrite <- agree; [done| |done]. by eapply lookup_lt_Some.
        + apply Habs. unfold present_c. rewrite Hs, Hx.
          apply bool_decide_eq_false. by intros [??].
      - apply Habs. unfold present_c. by rewrite Hs. }
    apply IH; [by apply row_c_prev|done].
Qed.

Lemma scan_rows_c :
  (scan_rows a b2j 0 (length a) 0 (length b)).2.1.1
  = (scan_rows a b2j 0 (length a) 0 (length b)).2.1.2.
Proof.
  unfold scan_rows. rewrite Nat.sub_0_r.
  apply (scan_rows_fold_c (length a) 0 (∅, (0, 0, 0))).
  - split.
    + intros j. unfold j2lenget_pred.
      destruct j; simpl; rewrite ?lookup_empty; simpl; lia.
    + done.
  - split; [done|]. intros p Hp. lia.
Qed.

Lemma same_elt_common_range i :
  i < length a → i < length b → same_elt a b i i = true.
Proof.
  intros Ha Hb. unfold same_elt. rewrite <- agree by done.
  destruct (lookup_lt_is_Some_2 a i Ha) as [x ->].
  by apply bool_decide_eq_true.
Qed.

Lemma extend_left_c besti bestsize :
  besti ≤ length a → besti ≤ length b →
  extend_left a b 0 0 false besti besti bestsize = (0, 0, besti + bestsize).
Proof.
  revert bestsize. induction besti as [|i' IH]; intros bestsize Ha Hb; [done|].
  simpl. rewrite isbjunk_never, same_elt_common_range by lia.
  rewrite !bool_decide_eq_true_2 by (done || lia). simpl.
  rewrite IH by lia. f_equal. lia.
Qed.

Lemma extend_right_loop_c rounds bestsize :
  bestsize ≤ length a `min` length b →
  length a `min` length b - bestsize ≤ rounds →
  extend_right_loop a b (length a) (length b) false 0 0 rounds bestsize
  = length a `min` length b.
Proof.
  revert bestsize. induction rounds as [|rounds IH]; intros bestsize Hle Hr.
  - simpl. lia.
  - simpl. destruct (decide (bestsize = length a `min` length b)) as [Heq|Hne].
    + destruct (decide (length a ≤ length b)).
      * rewrite (bool_decide_eq_false_2 (bestsize < length a)) by lia. done.
      * rewrite (bool_decide_eq_false_2 (bestsize < length b)) by lia.
        by rewrite andb_false_r.
    + rewrite isbjunk_never, same_elt_common_range by lia.
      rewrite !bool_decide_eq_true_2 by (done || lia). simpl.
      apply IH; lia.
Qed.

Lemma extend_right_loop_junk rounds bestsize :
  extend_right_loop a b (length a) (length b) true 0 0 rounds bestsize
  = bestsize.
Proof.
  destruct rounds as [|rounds]; [done|]. simpl.
  rewrite isbjunk_never. rewrite (bool_decide_eq_false_2 (false = true)) by done.
  by rewrite andb_false_r.
Qed.

Lemma find_longest_match_c :
  find_longest_match a b b2j 0 (length a) 0 (length b)
  = (0, 0, length a `min` length b).
Proof.
  unfold find_longest_match.
  pose proof scan_rows_c as Hdiag.
  pose proof (scan_rows_ok a b b2j) as Hok.
  specialize (Hok ltac:(intros x js j Hx Hj;
    rewrite (b2j_positions x js Hx) in Hj; by apply elem_of_positions)
    0 (length a) 0 (length b)).
  destruct (scan_rows a b2j 0 (length a) 0 (length b)) as [row [[bi bj] bs]].
  simpl in Hdiag, Hok. subst bj. destruct Hok as (_ & _ & H0 & Hn0 & _).
  assert (bi + bs ≤ length a ∧ bi + bs ≤ length b) as [Hla Hlb].
  { destruct (decide (bs = 0)) as [Hz|Hnz].
    - destruct (H0 Hz). lia.
    - by destruct (Hn0 Hnz). }
  replace (extend a b 0 (length a) 0 (length b) false (row, (bi, bi, bs)).2)
    with (extend_right a b (length a) (length b) false
            (extend_left a b 0 0 false bi bi bs)) by reflexivity.
  rewrite extend_left_c by lia.
  unfold extend_right. rewrite Nat.add_0_l.
  rewrite extend_right_loop_c by lia.
  unfold extend, extend_left, extend_right.
  by rewrite extend_right_loop_junk.
Qed.
End CommonPrefix.

Section MatchesPrefix.
Context {A : Type} `{Countable A}.

Lemma matches_common_prefix (a b : list A) :
  (∀ p, p < length a → p < length b → a !! p = b !! p) →
  matches a b = length a `min` length b.
Proof.
  intros Hagree. rewrite matches_gmb_loop.
  unfold gmb_loop, gmb_rounds.
  replace (2 * length a + 1) with (S (2 * length a)) by lia.
  rewrite Nat.iter_succ_r. unfold gmb_step at 2. simpl.
  rewrite (find_longest_match_c a b (chain_b b) (chain_b_lookup b) Hagree).
  destruct (decide (length a `min` length b ≠ 0)) as [Hn|Hn].
  - rewrite decide_False by lia. rewrite decide_False by lia.
    rewrite gmb_iter_done. simpl. unfold block_size. simpl. lia.
  - rewrite gmb_iter_done. simpl. lia.
Qed.

Lemma prefix_agree (a b : list A) :
  a `prefix_of` b ∨ b `prefix_of` a →
  ∀ p, p < length a → p < length b → a !! p = b !! p.
Proof.
  intros [[k ->]|[k ->]] p Ha Hb; by rewrite lookup_app_l.
Qed.
End MatchesPrefix.

(** X23. When one of the two strings is a prefix of the other (a text and
    its truncation), all of the shorter string is matched: the ratio is
    exactly [2 * len(shorter) / (len(s) + len(c))], in whichever order the
    two strings are given. *)
Theorem ratio_prefix (s c : str) :
  s `prefix_of` c ∨ c `prefix_of` s →
  matches s c = length s `min` length c
  ∧ ratio s c
    = calculate_ratio (length s `min` length c) (length s + length c).
Proof.
  intros Hp. pose proof (matches_common_prefix s c (prefix_agree s c Hp)) as Hm.
  split; [done|]. unfold ratio. by rewrite Hm.
Qed.

Lemma ratio_prefix_witness :
  ratio (py "Python Programming") (py "Python Programmin")
  = calculate_ratio 17 35.
Proof.
  apply (ratio_prefix (py "Python Programming") (py "Python Programmin")).
  right. by exists (py "g").
Defined.

(** X24. [text_match] does not depend on the order of its two strings
    when the ratio limit is at least 1, or when one string is a prefix of
    the other. *)
Theorem text_match_symmetric_cases (s c : str) (r : Q) :
  (1 <= r)%Q ∨ s `prefix_of` c ∨ c `prefix_of` s →
  text_match (PyStr s) c r = text_match (PyStr c) s r.
Proof.
  intros Hcase. simpl. destruct (Qle_bool 1 r) eqn:Hr.
  - apply bool_decide_ext. split; by intros ->.
  - destruct Hcase as [H1|Hp].
    + apply Qle_bool_iff in H1. congruence.
    + unfold ratio.
      rewrite (matches_common_prefix s c (prefix_agree s c Hp)).
      rewrite (matches_common_prefix c s
                 (prefix_agree c s ltac:(tauto))).
      by rewrite Nat.min_comm, (Nat.add_comm (length c)).
Qed.

Lemma text_match_symmetric_cases_witness :
  text_match (PyStr (py "testing")) (py "testin") (9 # 10)
  = text_match (PyStr (py "testin")) (py "testing") (9 # 10).
Proof.
  apply text_match_symmetric_cases. right. right. by exists (py "g").
Defined.
